(** * The voice stream registry of [AudioPlayer.js]

    A shallow embedding of [src/client/voice/player/AudioPlayer.js]: the
    [AudioPlayer] class owns an insertion-ordered map [streams] from stream
    handles to entries [{ transcoder, dispatcher, input }] and routes the
    lifecycle signals of its collaborators (prism transcoders and stream
    dispatchers) into mutations of that map.

    Modelling choices.
    - JavaScript object identity is made explicit: stream objects are
      [handle]s, every object the player allocates (map entries and
      dispatchers) receives a number from the allocation counter [next_id],
      and [===] on entries compares those numbers.
    - The collaborators are opaque.  Every call the player makes on one of
      them ([prism.transcode], [transcoder.kill], [new StreamDispatcher],
      [dispatcher.destroy], [voiceConnection.setSpeaking]) and every signal
      the player itself emits is appended to [trace].
    - The callbacks the player registers with [.on] are kept in [listeners]
      as data ([handler]); [emit_from] runs them the way an event emitter
      does when the collaborator raises the signal.  A signal is a step of
      its own: what [kill] and [destroy] do inside the collaborator is not
      part of this file.
    - JavaScript values that the player only copies around (option values,
      error objects, the speaking flag) are an abstract type [value] with
      the interface [JSValue]: the conversion [String(v)] and the literals
      [0] and [1] used as defaults. *)

From stdpp Require Import base relations list strings pretty.

(** A reference to a stream object (a PCM stream, or the media handed to
    [playUnknownStream]). *)
Definition handle := nat.

(** ** The insertion-ordered map behind [Collection]

    [Collection] extends the built-in [Map]: keys are unique, iteration
    follows insertion order, [set] on a present key replaces the value
    where it stands, [delete] removes the key. *)
Module Map.
Section Map.
Context {V : Type}.

Fixpoint get (k : handle) (m : list (handle * V)) : option V :=
  match m with
  | [] => None
  | (k', v) :: m' => if decide (k = k') then Some v else get k m'
  end.

Definition has (k : handle) (m : list (handle * V)) : bool :=
  match get k m with Some _ => true | None => false end.

Fixpoint set (k : handle) (v : V) (m : list (handle * V)) : list (handle * V) :=
  match m with
  | [] => [(k, v)]
  | (k', v') :: m' =>
      if decide (k = k') then (k, v) :: m' else (k', v') :: set k v m'
  end.

Definition delete (k : handle) (m : list (handle * V)) : list (handle * V) :=
  filter (λ kv, kv.1 ≠ k) m.

Definition keys (m : list (handle * V)) : list handle := m.*1.

(** In-place mutation of the object stored under [k]
    ([map.get(k).field = x]).  The key is present at the only place the
    player does this (lemma [update_target_present]). *)
Fixpoint update (k : handle) (f : V → V) (m : list (handle * V)) : list (handle * V) :=
  match m with
  | [] => []
  | (k', v) :: m' =>
      if decide (k = k') then (k', f v) :: m' else (k', v) :: update k f m'
  end.

(** Modelled from the spec: [Collection.last] (util/Collection.js is not
    among the sources).  The registry "supports most recently inserted
    lookup": the value of the last entry in insertion order, [undefined]
    ([None]) when the collection is empty. *)
Definition last (m : list (handle * V)) : option V := snd <$> list.last m.
End Map.
End Map.

(** How a call ends: with a value, or by throwing. *)
Inductive completion (A : Type) := Return (a : A) | Throw (err : string).
Arguments Return {A} a.
Arguments Throw {A} err.

(** JavaScript values the player passes through untouched, with the
    conversion [String(v)] and the number literals [0] and [1]. *)
Class JSValue (value : Type) := {
  String_ : value → string;
  num0 : value;
  num1 : value
}.

(** Integers as the values of the worked examples. *)
#[global] Instance Z_JSValue : JSValue Z :=
  {| String_ := pretty; num0 := 0%Z; num1 := 1%Z |}.

Section Player.
Context {value : Type} `{!JSValue value}.

(** ** Data *)

(** The object returned by [prism.transcode]: its identity and its
    [output] stream. *)
Record Transcoder := { t_id : nat; output : handle }.

(** [{ seek, volume, passes }] after the defaults have been applied. *)
Record Options := { seek : value; volume : value; passes : value }.

(** The options object as a caller passes it: a missing property is
    [None]. *)
Record OptionsArg :=
  { arg_seek : option value; arg_volume : option value; arg_passes : option value }.

(** Modelled from the spec: [StreamDispatcher]
    (voice/dispatcher/StreamDispatcher.js is not among the sources).  A
    dispatcher is bound to exactly one PCM source; the player only
    constructs it, registers callbacks on it and calls [destroy] on it, so
    it is represented by its identity and its constructor arguments. *)
Record StreamDispatcher := { d_id : nat; d_stream : handle; d_options : Options }.

(** The value stored in [streams]: [{ transcoder, dispatcher, input }]
    with the identity [eid] of the object literal. *)
Record StreamEntry := {
  eid : nat;
  transcoder : option Transcoder;
  dispatcher : option StreamDispatcher;
  input : handle
}.

(** The argument of [prism.transcode]. *)
Record TranscodeConfig :=
  { type_ : string; media : handle; cfg_ffmpegArguments : list string }.

(** Calls on collaborators and signals emitted by the player. *)
Inductive event :=
| EvTranscode (cfg : TranscodeConfig)              (* this.prism.transcode(cfg) *)
| EvKill (t : Transcoder)                          (* transcoder.kill() *)
| EvNewDispatcher (d : StreamDispatcher)           (* new StreamDispatcher(this, stream, options) *)
| EvDestroy (d : StreamDispatcher) (reason : string) (* dispatcher.destroy(reason) *)
| EvSetSpeaking (v : value)                        (* this.voiceConnection.setSpeaking(v) *)
| EvEmitError (e : value)                          (* this.emit('error', e) *)
| EvEmitWarn (msg : string).                       (* this.emit('warn', msg) *)

(** The arrow functions the player registers on its collaborators. *)
Inductive handler :=
| OnTranscoderError (stream : handle) (* e => { this.destroyStream(stream); ... } *)
| OnSpeaking                          (* value => this.voiceConnection.setSpeaking(value) *)
| OnEnd (stream : handle)             (* () => this.destroyStream(stream) *)
| OnError (stream : handle).          (* () => this.destroyStream(stream) *)

(** The collaborator a callback is registered on. *)
Inductive emitter := OfTranscoder (id : nat) | OfDispatcher (id : nat).

#[global] Instance emitter_eq_dec : EqDecision emitter.
Proof. solve_decision. Defined.

Record listener := { l_emitter : emitter; l_signal : string; l_handler : handler }.

Record AudioPlayer := {
  streams : list (handle * StreamEntry);  (* this.streams *)
  next_id : nat;                          (* identity of the next allocated object *)
  error_listeners : nat;                  (* this.listenerCount('error') *)
  listeners : list listener;              (* callbacks registered with .on *)
  trace : list event
}.

(** The player right after its constructor, with [n] consumers listening
    for ['error']. *)
Definition new_player (n : nat) : AudioPlayer :=
  {| streams := []; next_id := 0; error_listeners := n; listeners := []; trace := [] |}.

(** ** State updates *)

Definition with_streams (m : list (handle * StreamEntry)) (p : AudioPlayer) : AudioPlayer :=
  {| streams := m; next_id := next_id p; error_listeners := error_listeners p;
     listeners := listeners p; trace := trace p |}.

Definition log (ev : event) (p : AudioPlayer) : AudioPlayer :=
  {| streams := streams p; next_id := next_id p; error_listeners := error_listeners p;
     listeners := listeners p; trace := trace p ++ [ev] |}.

Definition logs (evs : list event) (p : AudioPlayer) : AudioPlayer :=
  {| streams := streams p; next_id := next_id p; error_listeners := error_listeners p;
     listeners := listeners p; trace := trace p ++ evs |}.

(** One object has been allocated. *)
Definition bump (p : AudioPlayer) : AudioPlayer :=
  {| streams := streams p; next_id := S (next_id p); error_listeners := error_listeners p;
     listeners := listeners p; trace := trace p |}.

(** [src.on(signal, h)] *)
Definition on (src : emitter) (signal : string) (h : handler) (p : AudioPlayer) : AudioPlayer :=
  {| streams := streams p; next_id := next_id p; error_listeners := error_listeners p;
     listeners := listeners p ++ [{| l_emitter := src; l_signal := signal; l_handler := h |}];
     trace := trace p |}.

(** ** The module constant [ffmpegArguments] *)
Definition ffmpegArguments : list string :=
  [ "-analyzeduration"; "0";
    "-loglevel"; "0";
    "-f"; "s16le";
    "-ar"; "48000";
    "-ac"; "2" ].

(** ** Parameter destructuring [{ seek = 0, volume = 1, passes = 1 } = {}] *)
Definition destructure (arg : option OptionsArg) : Options :=
  let o := default {| arg_seek := None; arg_volume := None; arg_passes := None |} arg in
  {| seek := default num0 (arg_seek o);
     volume := default num1 (arg_volume o);
     passes := default num1 (arg_passes o) |}.

(** The object literal [{ seek, volume, passes }] passed on as an argument. *)
Definition as_arg (o : Options) : OptionsArg :=
  {| arg_seek := Some (seek o); arg_volume := Some (volume o); arg_passes := Some (passes o) |}.

(** ** Methods *)

(** [get currentTranscoder()]: [this.streams.last().transcoder].  Reading
    a property of [undefined] throws a [TypeError]. *)
Definition currentTranscoder (p : AudioPlayer) : AudioPlayer * completion (option Transcoder) :=
  match Map.last (streams p) with
  | Some data => (p, Return (transcoder data))
  | None => (p, Throw "TypeError")
  end.

(** The calls [destroyStream] makes on the collaborators of one entry. *)
Definition kill_events (data : StreamEntry) : list event :=
  match transcoder data with Some t => [EvKill t] | None => [] end.
Definition destroy_events (data : StreamEntry) : list event :=
  match dispatcher data with Some d => [EvDestroy d "end"] | None => [] end.

Definition destroyStream (stream : handle) (p : AudioPlayer) : AudioPlayer :=
  match Map.get stream (streams p) with
  | None => p
  | Some data =>
      let p := match transcoder data with Some t => log (EvKill t) p | None => p end in
      let p := match dispatcher data with Some d => log (EvDestroy d "end") p | None => p end in
      with_streams (Map.delete stream (streams p)) p
  end.

(** The argument of [destroyAllStreams]: a stream, [true], or nothing. *)
Inductive except_arg := ExceptStream (h : handle) | ExceptTrue | ExceptAbsent.

(** [a === b] on results of [get]/[last]: the same entry object, or both
    [undefined]. *)
Definition same_entry (a b : option StreamEntry) : bool :=
  match a, b with
  | Some x, Some y => bool_decide (eid x = eid y)
  | None, None => true
  | _, _ => false
  end.

(** [except === stream] and [except === true]. *)
Definition except_is_stream (except : except_arg) (stream : handle) : bool :=
  match except with ExceptStream h => bool_decide (h = stream) | _ => false end.
Definition except_is_true (except : except_arg) : bool :=
  match except with ExceptTrue => true | _ => false end.

(** The body of [for (const stream of this.streams.keys())].  The key
    iterator is live: a key deleted before it is reached is not visited.
    The body never adds a key, so the keys still to come are among those
    present when the loop started. *)
Fixpoint destroyAllStreams_loop (except : except_arg) (ks : list handle)
    (p : AudioPlayer) : AudioPlayer :=
  match ks with
  | [] => p
  | stream :: ks =>
      if negb (Map.has stream (streams p)) then destroyAllStreams_loop except ks p
      else if except_is_stream except stream then destroyAllStreams_loop except ks p
      else if except_is_true except
              && same_entry (Map.get stream (streams p)) (Map.last (streams p))
      then destroyAllStreams_loop except ks p
      else destroyAllStreams_loop except ks (destroyStream stream p)
  end.

Definition destroyAllStreams (except : except_arg) (p : AudioPlayer) : AudioPlayer :=
  destroyAllStreams_loop except (Map.keys (streams p)) p.

(** [this.streams.get(stream).dispatcher = dispatcher] *)
Definition set_dispatcher (d : StreamDispatcher) (data : StreamEntry) : StreamEntry :=
  {| eid := eid data; transcoder := transcoder data; dispatcher := Some d; input := input data |}.

Definition playPCMStream (stream : handle) (arg : option OptionsArg)
    (p : AudioPlayer) : AudioPlayer * StreamDispatcher :=
  let options := destructure arg in
  let p := destroyAllStreams (ExceptStream stream) p in
  let dispatcher := {| d_id := next_id p; d_stream := stream; d_options := options |} in
  let p := log (EvNewDispatcher dispatcher) (bump p) in
  let p := on (OfDispatcher (d_id dispatcher)) "speaking" OnSpeaking p in
  let p :=
    if Map.has stream (streams p) then p
    else with_streams
           (Map.set stream
              {| eid := next_id p; transcoder := None;
                 dispatcher := Some dispatcher; input := stream |}
              (streams p))
           (bump p) in
  let p := with_streams (Map.update stream (set_dispatcher dispatcher) (streams p)) p in
  let p := on (OfDispatcher (d_id dispatcher)) "end" (OnEnd stream) p in
  let p := on (OfDispatcher (d_id dispatcher)) "error" (OnError stream) p in
  (p, dispatcher).

(** [transcoder] is the object [this.prism.transcode(...)] returned. *)
Definition playUnknownStream (stream : handle) (arg : option OptionsArg)
    (transcoder : Transcoder) (p : AudioPlayer) : AudioPlayer * StreamDispatcher :=
  let options := destructure arg in
  let p := log (EvTranscode
                  {| type_ := "ffmpeg"; media := stream;
                     cfg_ffmpegArguments := ffmpegArguments ++ ["-ss"; String_ (seek options)] |})
               p in
  let p := with_streams
             (Map.set (output transcoder)
                {| eid := next_id p; transcoder := Some transcoder;
                   dispatcher := None; input := stream |}
                (streams p))
             (bump p) in
  let p := on (OfTranscoder (t_id transcoder)) "error" (OnTranscoderError stream) p in
  playPCMStream (output transcoder) (Some (as_arg options)) p.

(** ** Callbacks *)

(** The transcoder ['error'] callback of [playUnknownStream]. *)
Definition transcoder_error (stream : handle) (e : value) (p : AudioPlayer) : AudioPlayer :=
  let p := destroyStream stream p in
  let p := if bool_decide (0 < error_listeners p) then log (EvEmitError e) p else p in
  log (EvEmitWarn ("prism transcoder error - " +:+ String_ e)) p.

Definition run_handler (h : handler) (v : value) (p : AudioPlayer) : AudioPlayer :=
  match h with
  | OnTranscoderError stream => transcoder_error stream v p
  | OnSpeaking => log (EvSetSpeaking v) p
  | OnEnd stream => destroyStream stream p
  | OnError stream => destroyStream stream p
  end.

(** The callbacks registered on [src] for [signal], in registration order. *)
Definition handlers_of (src : emitter) (signal : string) (p : AudioPlayer) : list handler :=
  l_handler <$> filter (λ l, l_emitter l = src ∧ l_signal l = signal) (listeners p).

(** The collaborator [src] emits [signal] with argument [v]: the callbacks
    registered at that moment run in registration order. *)
Definition emit_from (src : emitter) (signal : string) (v : value)
    (p : AudioPlayer) : AudioPlayer :=
  foldl (λ p h, run_handler h v p) p (handlers_of src signal p).

(** A consumer adds or removes ['error'] listeners on the player. *)
Definition with_error_listeners (n : nat) (p : AudioPlayer) : AudioPlayer :=
  {| streams := streams p; next_id := next_id p; error_listeners := n;
     listeners := listeners p; trace := trace p |}.

(** ** Runs of the player

    What can happen to a player between two observations: a consumer calls
    one of its methods or changes its ['error'] listeners, or a collaborator
    raises a signal. *)
Inductive step : AudioPlayer → AudioPlayer → Prop :=
| step_playUnknownStream stream arg tr p :
    step p (playUnknownStream stream arg tr p).1
| step_playPCMStream stream arg p :
    step p (playPCMStream stream arg p).1
| step_destroyStream stream p :
    step p (destroyStream stream p)
| step_destroyAllStreams except p :
    step p (destroyAllStreams except p)
| step_signal src signal v p :
    step p (emit_from src signal v p)
| step_listen n p :
    step p (with_error_listeners n p).

Inductive reachable : AudioPlayer → Prop :=
| reachable_new n : reachable (new_player n)
| reachable_step p q : reachable p → step p q → reachable q.

(** ** Representation invariant

    What holds of every player reached from [new_player] through the
    methods and callbacks above: the map has unique keys, distinct keys hold
    distinct entry objects, distinct dispatchers and distinct transcoders,
    and every object the player allocated, or registered a callback on, is
    older than [next_id]. *)
Definition entry_ids (m : list (handle * StreamEntry)) : list nat :=
  (λ kv, eid kv.2) <$> m.
Definition dispatcher_ids (m : list (handle * StreamEntry)) : list nat :=
  omap (λ kv, d_id <$> dispatcher kv.2) m.
Definition transcoder_ids (m : list (handle * StreamEntry)) : list nat :=
  omap (λ kv, t_id <$> transcoder kv.2) m.
Definition listened_dispatchers (ls : list listener) : list nat :=
  omap (λ l, match l_emitter l with OfDispatcher i => Some i | OfTranscoder _ => None end) ls.

Definition wf (p : AudioPlayer) : Prop :=
  NoDup (Map.keys (streams p)) ∧
  NoDup (entry_ids (streams p)) ∧
  NoDup (dispatcher_ids (streams p)) ∧
  NoDup (transcoder_ids (streams p)) ∧
  Forall (λ i, i < next_id p) (entry_ids (streams p)) ∧
  Forall (λ i, i < next_id p) (dispatcher_ids (streams p)) ∧
  Forall (λ i, i < next_id p) (listened_dispatchers (listeners p)).

#[global] Instance wf_dec (p : AudioPlayer) : Decision (wf p).
Proof. unfold wf. apply _. Defined.

(** Everything [destroyStream] asks of the collaborators of one entry. *)
Definition teardown (data : StreamEntry) : list event :=
  kill_events data ++ destroy_events data.
Definition teardown_all (m : list (handle * StreamEntry)) : list event :=
  m ≫= (λ kv, teardown kv.2).

End Player.

(** * Worked examples

    Concrete players over integer values, used to run the definitions. *)
Module Examples.

Definition defaults : Options (value:=Z) := destructure None.

Definition tr7 : Transcoder := {| t_id := 7; output := 20 |}.
Definition tr8 : Transcoder := {| t_id := 8; output := 30 |}.
Definition d1 : StreamDispatcher (value:=Z) :=
  {| d_id := 1; d_stream := 10; d_options := defaults |}.
Definition d3 : StreamDispatcher (value:=Z) :=
  {| d_id := 3; d_stream := 20; d_options := defaults |}.

Definition entry10 : StreamEntry (value:=Z) :=
  {| eid := 0; transcoder := None; dispatcher := Some d1; input := 10 |}.
Definition entry20 : StreamEntry (value:=Z) :=
  {| eid := 2; transcoder := Some tr7; dispatcher := Some d3; input := 15 |}.
Definition entry30 : StreamEntry (value:=Z) :=
  {| eid := 4; transcoder := Some tr8; dispatcher := None; input := 25 |}.

(** A registry holding three streams, inserted in the order 10, 20, 30. *)
Definition three_streams : AudioPlayer (value:=Z) :=
  {| streams := [(10, entry10); (20, entry20); (30, entry30)];
     next_id := 5;
     error_listeners := 1;
     listeners :=
       [ {| l_emitter := OfDispatcher 1; l_signal := "end"; l_handler := OnEnd 10 |};
         {| l_emitter := OfTranscoder 7; l_signal := "error";
            l_handler := OnTranscoderError 15 |} ];
     trace := [] |}.

(** A media source, the transcoder prism returns for it, and the player
    after [playUnknownStream] with and without an ['error'] listener. *)
Definition media : handle := 1.
Definition tr : Transcoder := {| t_id := 7; output := 2 |}.
Definition playing (n : nat) : AudioPlayer (value:=Z) :=
  (playUnknownStream media None tr (new_player n)).1.
Definition playing_dispatcher : StreamDispatcher (value:=Z) :=
  {| d_id := 1; d_stream := 2; d_options := defaults |}.
Definition playing_entry : StreamEntry (value:=Z) :=
  {| eid := 0; transcoder := Some tr; dispatcher := Some playing_dispatcher;
     input := media |}.

End Examples.

(** * The context menu command builder

    The class [ContextMenuCommandBuilder] that follows [AudioPlayer] in the
    source.  A builder is a mutable object with five fields; every setter
    validates its argument, stores it with [Reflect.set] and returns [this];
    a validation that throws leaves the builder as it was. *)
Module ContextMenu.

(** A value that may be [undefined] or [null]. *)
Inductive nullish (A : Type) := Undefined | Null | Value (a : A).
Arguments Undefined {A}.
Arguments Null {A}.
Arguments Value {A} a.

(** [ApplicationCommandType.User | ApplicationCommandType.Message] *)
Inductive ContextMenuCommandType := User | Message.

(** [Permissions] of discord-api-types: a bit set written as a string. *)
Definition Permissions := string.

(** The functions imported from ['./Assertions'], which is not among the
    sources: they are parameters.  Each returns or throws;
    [validateDefaultMemberPermission] returns the parsed value. *)
Class Assertions := {
  validateRequiredParameters :
    option string → option ContextMenuCommandType → completion unit;
  validateName : string → completion unit;
  validateType : ContextMenuCommandType → completion unit;
  validateDefaultPermission : bool → completion unit;
  validateDefaultMemberPermission : nullish Permissions → completion (nullish Permissions);
  validateDmPermission : nullish bool → completion unit
}.

(** The five fields; [name] and [type] start out [undefined] ([None]). *)
Record ContextMenuCommandBuilder := {
  name : option string;
  type : option ContextMenuCommandType;
  default_permission : option bool;
  default_member_permissions : nullish Permissions;
  dm_permission : nullish bool
}.

(** [new ContextMenuCommandBuilder()] *)
Definition new_builder : ContextMenuCommandBuilder :=
  {| name := None; type := None; default_permission := None;
     default_member_permissions := Undefined; dm_permission := Undefined |}.

Section Builder.
Context `{Assertions}.

(** A method call: the builder after the call, and [this] returned
    ([Return tt]) or the error thrown. *)
Definition outcome : Type := ContextMenuCommandBuilder * completion unit.

Definition setName (n : string) (b : ContextMenuCommandBuilder) : outcome :=
  match validateName n with
  | Throw e => (b, Throw e)
  | Return _ =>
      ({| name := Some n; type := type b; default_permission := default_permission b;
          default_member_permissions := default_member_permissions b;
          dm_permission := dm_permission b |}, Return tt)
  end.

Definition setType (t : ContextMenuCommandType) (b : ContextMenuCommandBuilder) : outcome :=
  match validateType t with
  | Throw e => (b, Throw e)
  | Return _ =>
      ({| name := name b; type := Some t; default_permission := default_permission b;
          default_member_permissions := default_member_permissions b;
          dm_permission := dm_permission b |}, Return tt)
  end.

Definition setDefaultPermission (v : bool) (b : ContextMenuCommandBuilder) : outcome :=
  match validateDefaultPermission v with
  | Throw e => (b, Throw e)
  | Return _ =>
      ({| name := name b; type := type b; default_permission := Some v;
          default_member_permissions := default_member_permissions b;
          dm_permission := dm_permission b |}, Return tt)
  end.

Definition setDefaultMemberPermissions (permissions : nullish Permissions)
    (b : ContextMenuCommandBuilder) : outcome :=
  match validateDefaultMemberPermission permissions with
  | Throw e => (b, Throw e)
  | Return permissionValue =>
      ({| name := name b; type := type b; default_permission := default_permission b;
          default_member_permissions := permissionValue;
          dm_permission := dm_permission b |}, Return tt)
  end.

Definition setDMPermission (enabled : nullish bool) (b : ContextMenuCommandBuilder) : outcome :=
  match validateDmPermission enabled with
  | Throw e => (b, Throw e)
  | Return _ =>
      ({| name := name b; type := type b; default_permission := default_permission b;
          default_member_permissions := default_member_permissions b;
          dm_permission := enabled |}, Return tt)
  end.

(** [toJSON()]: [{ ...this }] copies the five fields into a plain object,
    represented by a record of the same shape. *)
Definition toJSON (b : ContextMenuCommandBuilder) :
    ContextMenuCommandBuilder * completion ContextMenuCommandBuilder :=
  match validateRequiredParameters (name b) (type b) with
  | Throw e => (b, Throw e)
  | Return _ => (b, Return b)
  end.

(** A chain of setter calls [b.setName(n).setType(t)...]: each setter
    returns [this], and a setter that throws ends the chain. *)
Inductive call :=
| SetName (n : string)
| SetType (t : ContextMenuCommandType)
| SetDefaultPermission (v : bool)
| SetDefaultMemberPermissions (permissions : nullish Permissions)
| SetDMPermission (enabled : nullish bool).

Definition invoke (c : call) (b : ContextMenuCommandBuilder) : outcome :=
  match c with
  | SetName n => setName n b
  | SetType t => setType t b
  | SetDefaultPermission v => setDefaultPermission v b
  | SetDefaultMemberPermissions permissions => setDefaultMemberPermissions permissions b
  | SetDMPermission enabled => setDMPermission enabled b
  end.

Fixpoint chain (cs : list call) (b : ContextMenuCommandBuilder) : outcome :=
  match cs with
  | [] => (b, Return tt)
  | c :: cs =>
      match invoke c b with
      | (b', Return _) => chain cs b'
      | (b', Throw e) => (b', Throw e)
      end
  end.

(** The arguments a chain passes to each setter, in call order. *)
Definition names (cs : list call) : list string :=
  omap (λ c, match c with SetName n => Some n | _ => None end) cs.
Definition types (cs : list call) : list ContextMenuCommandType :=
  omap (λ c, match c with SetType t => Some t | _ => None end) cs.
Definition default_permissions (cs : list call) : list bool :=
  omap (λ c, match c with SetDefaultPermission v => Some v | _ => None end) cs.
Definition member_permissions (cs : list call) : list (nullish Permissions) :=
  omap (λ c, match c with SetDefaultMemberPermissions v => Some v | _ => None end) cs.
Definition dm_permissions (cs : list call) : list (nullish bool) :=
  omap (λ c, match c with SetDMPermission v => Some v | _ => None end) cs.

End Builder.

(** Sample validators for the worked examples: a name of 1 to 32
    characters, any type and flags, permissions given as a string. *)
Definition sample_assertions : Assertions := {|
  validateRequiredParameters n t :=
    match n, t with
    | Some _, Some _ => Return tt
    | _, _ => Throw "required"
    end;
  validateName n :=
    if bool_decide (1 ≤ String.length n ≤ 32) then Return tt else Throw "name";
  validateType _ := Return tt;
  validateDefaultPermission _ := Return tt;
  validateDefaultMemberPermission v := Return v;
  validateDmPermission _ := Return tt
|}.

End ContextMenu.

(** * Facts about the insertion-ordered map *)
Module MapFacts.
Section MapFacts.
Context {V : Type}.
Implicit Types (k : handle) (v : V) (m : list (handle * V)).

Lemma get_None k m : Map.get k m = None ↔ k ∉ Map.keys m.
Proof.
  unfold Map.keys. induction m as [|[k' v'] m IH]; simpl.
  - split; [intros _; apply not_elem_of_nil | done].
  - rewrite not_elem_of_cons. destruct (decide (k = k')); [|tauto].
    split; [done | tauto].
Qed.

Lemma get_Some_elem k v m : Map.get k m = Some v → (k, v) ∈ m.
Proof.
  induction m as [|[k' v'] m IH]; simpl; [done|].
  destruct (decide (k = k')) as [->|]; intros Hg.
  - injection Hg as ->. apply list_elem_of_here.
  - apply list_elem_of_further, IH, Hg.
Qed.

Lemma elem_get k v m : NoDup (Map.keys m) → (k, v) ∈ m → Map.get k m = Some v.
Proof.
  unfold Map.keys. induction m as [|[k' v'] m IH]; simpl; intros Hnd Hin.
  - by apply elem_of_nil in Hin.
  - apply NoDup_cons in Hnd as [Hk' Hnd].
    apply elem_of_cons in Hin as [Heq|Hin].
    + injection Heq as -> ->. by rewrite decide_True.
    + destruct (decide (k = k')) as [->|]; [|by apply IH].
      exfalso. apply Hk'. apply list_elem_of_fmap. by exists (k', v).
Qed.

Lemma has_get k m : Map.has k m = true ↔ is_Some (Map.get k m).
Proof.
  unfold Map.has. destruct (Map.get k m); split; try done; by intros [? ?].
Qed.

Lemma delete_absent k m : k ∉ Map.keys m → Map.delete k m = m.
Proof.
  unfold Map.delete, Map.keys. induction m as [|[k' v'] m IH]; simpl; [done|].
  rewrite not_elem_of_cons. intros [Hne Hm].
  rewrite filter_cons_True by (simpl; congruence). by rewrite IH.
Qed.

Lemma get_delete_eq k m : Map.get k (Map.delete k m) = None.
Proof.
  apply get_None. unfold Map.keys, Map.delete.
  intros ([k' v'] & Hk & Hin)%list_elem_of_fmap. simpl in Hk. subst k'.
  by apply list_elem_of_filter in Hin as [Hne _].
Qed.

Lemma get_delete_ne k k' m : k ≠ k' → Map.get k' (Map.delete k m) = Map.get k' m.
Proof.
  intros Hne. unfold Map.delete. induction m as [|[k0 v0] m IH]; simpl; [done|].
  destruct (decide (k0 = k)) as [->|Hk0].
  - rewrite filter_cons_False by (simpl; tauto).
    by rewrite IH, decide_False.
  - rewrite filter_cons_True by done. simpl. by rewrite IH.
Qed.

Lemma delete_delete k m : Map.delete k (Map.delete k m) = Map.delete k m.
Proof. apply delete_absent, get_None, get_delete_eq. Qed.

(** In a map with unique keys, the entry standing between [pre] and
    [post] is the one [get] finds and the one [delete] removes. *)
Lemma get_middle pre k v post :
  NoDup (Map.keys (pre ++ (k, v) :: post)) → Map.get k (pre ++ (k, v) :: post) = Some v.
Proof.
  intros Hnd. apply elem_get; [done|].
  apply elem_of_app. right. apply list_elem_of_here.
Qed.

Lemma delete_middle pre k v post :
  NoDup (Map.keys (pre ++ (k, v) :: post)) →
  Map.delete k (pre ++ (k, v) :: post) = pre ++ post.
Proof.
  unfold Map.keys. rewrite fmap_app, fmap_cons. simpl.
  intros (Hpre & Hdisj & Hpost)%NoDup_app.
  apply NoDup_cons in Hpost as [Hk Hpost].
  unfold Map.delete. rewrite filter_app, filter_cons_False by (simpl; tauto).
  fold (Map.delete k pre) (Map.delete k post).
  rewrite !delete_absent; [done|done|].
  intros Hin. apply (Hdisj k Hin). apply list_elem_of_here.
Qed.

Lemma keys_delete_NoDup k m : NoDup (Map.keys m) → NoDup (Map.keys (Map.delete k m)).
Proof.
  unfold Map.keys, Map.delete. induction m as [|[k' v'] m IH]; simpl; [done|].
  intros [Hk' Hnd]%NoDup_cons.
  destruct (decide (k' = k)) as [->|Hne].
  - rewrite filter_cons_False by (simpl; tauto). by apply IH.
  - rewrite filter_cons_True by done. simpl. apply NoDup_cons. split; [|by apply IH].
    intros ([k0 v0] & Hk0 & Hin)%list_elem_of_fmap. simpl in Hk0. subst k0.
    apply list_elem_of_filter in Hin as [_ Hin].
    apply Hk'. apply list_elem_of_fmap. by exists (k', v0).
Qed.

(** With unique keys, selecting the entries of one key yields what [get]
    finds. *)
Lemma filter_key k m :
  NoDup (Map.keys m) →
  filter (λ kv, kv.1 = k) m = match Map.get k m with Some v => [(k, v)] | None => [] end.
Proof.
  unfold Map.keys. induction m as [|[k' v'] m IH]; simpl; [done|].
  intros [Hk' Hnd]%NoDup_cons.
  destruct (decide (k = k')) as [->|Hne].
  - rewrite filter_cons_True by done. f_equal.
    specialize (IH Hnd). destruct (Map.get k' m) eqn:Hg.
    + exfalso. apply Hk'. apply get_Some_elem in Hg.
      apply list_elem_of_fmap. by eexists (_, _).
    + done.
  - rewrite filter_cons_False by (simpl; congruence). by apply IH.
Qed.

Lemma get_set_eq k v m : Map.get k (Map.set k v m) = Some v.
Proof.
  induction m as [|[k' v'] m IH]; simpl.
  - by rewrite decide_True.
  - destruct (decide (k = k')) as [->|Hne]; simpl.
    + by rewrite decide_True.
    + by rewrite decide_False.
Qed.

Lemma get_set_ne k k' v m : k ≠ k' → Map.get k' (Map.set k v m) = Map.get k' m.
Proof.
  intros Hne. induction m as [|[k0 v0] m IH]; simpl.
  - by rewrite decide_False.
  - destruct (decide (k = k0)) as [->|Hk0]; simpl.
    + by rewrite !decide_False by congruence.
    + by rewrite IH.
Qed.

Lemma elem_set k v k' v' m : (k', v') ∈ Map.set k v m → k' = k ∨ (k', v') ∈ m.
Proof.
  induction m as [|[k0 v0] m IH]; simpl.
  - intros Hin%list_elem_of_singleton. left. congruence.
  - destruct (decide (k = k0)) as [->|Hne].
    + intros [Heq|Hin]%elem_of_cons; [left; congruence | right; by apply list_elem_of_further].
    + intros [Heq|Hin]%elem_of_cons.
      * right. rewrite Heq. apply list_elem_of_here.
      * destruct (IH Hin); [by left | right; by apply list_elem_of_further].
Qed.

Lemma keys_set_NoDup k v m : NoDup (Map.keys m) → NoDup (Map.keys (Map.set k v m)).
Proof.
  unfold Map.keys. induction m as [|[k' v'] m IH]; simpl.
  - intros _. apply NoDup_singleton.
  - intros [Hk' Hnd]%NoDup_cons.
    destruct (decide (k = k')) as [->|Hne]; simpl.
    + by apply NoDup_cons.
    + apply NoDup_cons. split; [|by apply IH].
      intros ([k0 v0] & Hk0 & Hin)%list_elem_of_fmap. simpl in Hk0. subst k0.
      apply elem_set in Hin as [?|Hin]; [congruence|].
      apply Hk'. apply list_elem_of_fmap. by exists (k', v0).
Qed.

Lemma update_target_present k v m :
  Map.has k (if Map.has k m then m else Map.set k v m) = true.
Proof.
  destruct (Map.has k m) eqn:Hh; [done|].
  unfold Map.has. by rewrite get_set_eq.
Qed.

Lemma last_snoc m kv : Map.last (m ++ [kv]) = Some kv.2.
Proof. unfold Map.last. by rewrite list.last_snoc. Qed.

End MapFacts.
End MapFacts.

(** * Facts about the player *)
Section Facts.
Context {value : Type} `{!JSValue value}.
Implicit Types (p q : AudioPlayer (value:=value)).
Implicit Types (m pre rest : list (handle * StreamEntry (value:=value))).
Implicit Types (stream h k s : handle) (data : StreamEntry (value:=value)).

Lemma player_eq p q :
  streams p = streams q → next_id p = next_id q →
  error_listeners p = error_listeners q → listeners p = listeners q →
  trace p = trace q → p = q.
Proof. destruct p, q; simpl; congruence. Qed.

Lemma player_eta p : with_streams (streams p) (logs [] p) = p.
Proof. apply player_eq; simpl; try done. apply app_nil_r. Qed.

(** ** [destroyStream] *)

Lemma destroyStream_eq stream p :
  destroyStream stream p =
    match Map.get stream (streams p) with
    | None => p
    | Some data => with_streams (Map.delete stream (streams p)) (logs (teardown data) p)
    end.
Proof.
  unfold destroyStream, teardown, kill_events, destroy_events.
  destruct (Map.get stream (streams p)) as [data|]; [|done].
  destruct (transcoder data), (dispatcher data); apply player_eq; simpl; try done.
  all: by rewrite ?app_nil_r, <- ?app_assoc.
Qed.

Lemma destroyStream_streams stream p :
  streams (destroyStream stream p) = Map.delete stream (streams p).
Proof.
  rewrite destroyStream_eq. destruct (Map.get stream (streams p)) eqn:Hg; [done|].
  symmetry. by apply MapFacts.delete_absent, MapFacts.get_None.
Qed.

Lemma destroyStream_trace stream p :
  trace (destroyStream stream p) =
    trace p ++ from_option teardown [] (Map.get stream (streams p)).
Proof.
  rewrite destroyStream_eq. destruct (Map.get stream (streams p)); simpl; [done|].
  by rewrite app_nil_r.
Qed.

Lemma destroyStream_rest stream p :
  next_id (destroyStream stream p) = next_id p ∧
  error_listeners (destroyStream stream p) = error_listeners p ∧
  listeners (destroyStream stream p) = listeners p.
Proof. rewrite destroyStream_eq. by destruct (Map.get stream (streams p)). Qed.

(** ** [destroyAllStreams] *)

(** The loop with [except] a stream or absent, started in the middle of the
    map: [pre] has been visited, the keys of [rest] are still to come. *)
Lemma destroyAllStreams_loop_static except pre rest p :
  except_is_true except = false →
  streams p = pre ++ rest →
  NoDup (Map.keys (pre ++ rest)) →
  destroyAllStreams_loop except (Map.keys rest) p =
    with_streams (pre ++ filter (λ kv, except_is_stream except kv.1) rest)
      (logs (teardown_all (filter (λ kv, ¬ except_is_stream except kv.1) rest)) p).
Proof.
  intros Hex. revert pre p.
  induction rest as [|[k data] rest IH]; intros pre p Hp Hnd.
  - simpl. rewrite app_nil_r in *. rewrite <- Hp. symmetry. apply player_eta.
  - cbn [Map.keys fmap list_fmap fst destroyAllStreams_loop].
    fold (Map.keys rest).
    assert (Hg : Map.get k (streams p) = Some data)
      by (rewrite Hp; by apply MapFacts.get_middle).
    unfold Map.has. rewrite Hg. cbn [negb]. rewrite Hex. cbn [andb].
    destruct (except_is_stream except k) eqn:Hk.
    + rewrite (IH (pre ++ [(k, data)]) p).
      * rewrite filter_cons_True by (simpl; by rewrite Hk).
        rewrite filter_cons_False by (simpl; rewrite Hk; intros Hn; by apply Hn).
        by rewrite <- app_assoc.
      * by rewrite <- app_assoc.
      * by rewrite <- app_assoc.
    + rewrite destroyStream_eq, Hg.
      rewrite (IH pre).
      * rewrite filter_cons_False by (simpl; rewrite Hk; naive_solver).
        rewrite filter_cons_True by (simpl; rewrite Hk; naive_solver).
        apply player_eq; simpl; try done.
        unfold teardown_all. simpl. by rewrite <- ?app_assoc.
      * simpl. rewrite Hp. by apply MapFacts.delete_middle.
      * revert Hnd. unfold Map.keys. rewrite !fmap_app, fmap_cons.
        rewrite !NoDup_app, NoDup_cons. intros (? & Hd & ? & ?).
        split_and!; [done| |done].
        intros x Hx Hx'. apply (Hd x Hx). by apply list_elem_of_further.
Qed.

(** The loop with [except === true]: every entry before the last one is an
    object different from the last one and is destroyed; the last is kept. *)
Lemma destroyAllStreams_loop_true m kv p :
  streams p = m ++ [kv] →
  NoDup (Map.keys (m ++ [kv])) →
  NoDup (entry_ids (m ++ [kv])) →
  destroyAllStreams_loop ExceptTrue (Map.keys (m ++ [kv])) p =
    with_streams [kv] (logs (teardown_all m) p).
Proof.
  revert p. induction m as [|[k data] m IH]; intros p Hp Hnd Hids.
  - destruct kv as [k data]. simpl in *. unfold Map.has.
    rewrite Hp. simpl. rewrite decide_True by done. simpl.
    rewrite bool_decide_eq_true_2 by done.
    rewrite <- Hp. symmetry. apply player_eta.
  - cbn [Map.keys app fmap list_fmap fst destroyAllStreams_loop].
    fold (Map.keys (m ++ [kv])).
    assert (Hg : Map.get k (streams p) = Some data)
      by (rewrite Hp; simpl; by rewrite decide_True).
    unfold Map.has. rewrite Hg. cbn [negb except_is_stream except_is_true andb].
    assert (Hl : Map.last (streams p) = Some kv.2)
      by (rewrite Hp; apply (MapFacts.last_snoc ((k, data) :: m))).
    rewrite Hl. cbn [same_entry].
    simpl in Hnd, Hids. apply NoDup_cons in Hnd as [Hk Hnd].
    apply NoDup_cons in Hids as [Hid Hids].
    rewrite bool_decide_eq_false_2.
    + rewrite destroyStream_eq, Hg. rewrite IH; [| |done|done].
      * apply player_eq; simpl; try done.
        unfold teardown_all. simpl. by rewrite <- ?app_assoc.
      * simpl. rewrite Hp. unfold Map.delete. simpl.
        rewrite filter_cons_False by (simpl; tauto).
        by apply MapFacts.delete_absent.
    + intros Heq. apply Hid. unfold entry_ids. rewrite fmap_app.
      apply elem_of_app. right. simpl. rewrite Heq. apply list_elem_of_here.
Qed.

Lemma filter_except_stream s m :
  filter (λ kv, except_is_stream (ExceptStream s) kv.1) m = filter (λ kv, kv.1 = s) m.
Proof.
  apply list_filter_iff. intros [k data]. simpl.
  rewrite bool_decide_spec. split; congruence.
Qed.

Lemma filter_not_except_stream s m :
  filter (λ kv, ¬ except_is_stream (ExceptStream s) kv.1) m = filter (λ kv, kv.1 ≠ s) m.
Proof.
  apply list_filter_iff. intros [k data]. simpl.
  rewrite bool_decide_spec. split; intros Hne Heq; apply Hne; congruence.
Qed.

Lemma filter_except_absent m :
  filter (λ kv, except_is_stream ExceptAbsent kv.1) m = [].
Proof.
  induction m as [|kv m IH]; [done|].
  by rewrite filter_cons_False by (simpl; naive_solver).
Qed.

Lemma filter_not_except_absent m :
  filter (λ kv, ¬ except_is_stream ExceptAbsent kv.1) m = m.
Proof.
  induction m as [|kv m IH]; [done|].
  rewrite filter_cons_True by (simpl; naive_solver). by f_equal.
Qed.

Lemma destroyAllStreams_stream s p :
  NoDup (Map.keys (streams p)) →
  destroyAllStreams (ExceptStream s) p =
    with_streams (filter (λ kv, kv.1 = s) (streams p))
      (logs (teardown_all (filter (λ kv, kv.1 ≠ s) (streams p))) p).
Proof.
  intros Hnd. unfold destroyAllStreams.
  rewrite (destroyAllStreams_loop_static (ExceptStream s) [] (streams p) p); try done.
  by rewrite filter_except_stream, filter_not_except_stream.
Qed.

Lemma destroyAllStreams_absent p :
  NoDup (Map.keys (streams p)) →
  destroyAllStreams ExceptAbsent p = with_streams [] (logs (teardown_all (streams p)) p).
Proof.
  intros Hnd. unfold destroyAllStreams.
  rewrite (destroyAllStreams_loop_static ExceptAbsent [] (streams p) p); try done.
  by rewrite filter_except_absent, filter_not_except_absent.
Qed.

Lemma destroyAllStreams_true m kv p :
  streams p = m ++ [kv] →
  NoDup (Map.keys (streams p)) →
  NoDup (entry_ids (streams p)) →
  destroyAllStreams ExceptTrue p = with_streams [kv] (logs (teardown_all m) p).
Proof.
  intros Hp Hnd Hids. unfold destroyAllStreams. rewrite Hp in *.
  by apply destroyAllStreams_loop_true.
Qed.

(** ** [playPCMStream] *)

(** With unique keys the whole effect of [playPCMStream] in closed form. *)
Lemma playPCMStream_eq s arg p :
  NoDup (Map.keys (streams p)) →
  playPCMStream s arg p =
    let d := {| d_id := next_id p; d_stream := s; d_options := destructure arg |} in
    ({| streams :=
          [(s, match Map.get s (streams p) with
               | Some data => set_dispatcher d data
               | None => {| eid := S (next_id p); transcoder := None;
                            dispatcher := Some d; input := s |}
               end)];
        next_id := match Map.get s (streams p) with
                   | Some _ => S (next_id p)
                   | None => S (S (next_id p))
                   end;
        error_listeners := error_listeners p;
        listeners :=
          listeners p ++
            [ {| l_emitter := OfDispatcher (next_id p); l_signal := "speaking";
                 l_handler := OnSpeaking |};
              {| l_emitter := OfDispatcher (next_id p); l_signal := "end";
                 l_handler := OnEnd s |};
              {| l_emitter := OfDispatcher (next_id p); l_signal := "error";
                 l_handler := OnError s |} ];
        trace :=
          trace p ++ teardown_all (filter (λ kv, kv.1 ≠ s) (streams p))
                  ++ [EvNewDispatcher d] |},
     d).
Proof.
  intros Hnd. unfold playPCMStream.
  rewrite destroyAllStreams_stream by done.
  rewrite (MapFacts.filter_key s (streams p)) by done.
  destruct (Map.get s (streams p)) as [data|]; cbn; unfold Map.has; cbn.
  all: rewrite ?decide_True by done; cbn.
  all: f_equal; apply player_eq; cbn; try done.
  all: rewrite ?decide_True by done; by rewrite <- ?app_assoc.
Qed.

(** ** [playUnknownStream] *)

Lemma destructure_as_arg arg : destructure (Some (as_arg (destructure arg))) = destructure arg.
Proof. by destruct arg as [[[?|] [?|] [?|]]|]. Qed.

Lemma delete_set k data m : Map.delete k (Map.set k data m) = Map.delete k m.
Proof.
  unfold Map.delete. induction m as [|[k' data'] m IH]; simpl.
  - by rewrite filter_cons_False by (simpl; tauto).
  - destruct (decide (k = k')) as [->|Hne].
    + by rewrite !filter_cons_False by (simpl; tauto).
    + rewrite !filter_cons_True by (simpl; congruence). by f_equal.
Qed.

(** With unique keys the whole effect of [playUnknownStream] in closed
    form. *)
Lemma playUnknownStream_eq stream arg tr p :
  NoDup (Map.keys (streams p)) →
  playUnknownStream stream arg tr p =
    let d := {| d_id := S (next_id p); d_stream := output tr;
                d_options := destructure arg |} in
    ({| streams :=
          [(output tr, {| eid := next_id p; transcoder := Some tr;
                          dispatcher := Some d; input := stream |})];
        next_id := S (S (next_id p));
        error_listeners := error_listeners p;
        listeners :=
          listeners p ++
            [ {| l_emitter := OfTranscoder (t_id tr); l_signal := "error";
                 l_handler := OnTranscoderError stream |};
              {| l_emitter := OfDispatcher (S (next_id p)); l_signal := "speaking";
                 l_handler := OnSpeaking |};
              {| l_emitter := OfDispatcher (S (next_id p)); l_signal := "end";
                 l_handler := OnEnd (output tr) |};
              {| l_emitter := OfDispatcher (S (next_id p)); l_signal := "error";
                 l_handler := OnError (output tr) |} ];
        trace :=
          trace p ++
            [EvTranscode
               {| type_ := "ffmpeg"; media := stream;
                  cfg_ffmpegArguments :=
                    ffmpegArguments ++ ["-ss"; String_ (seek (destructure arg))] |}]
            ++ teardown_all (Map.delete (output tr) (streams p))
            ++ [EvNewDispatcher d] |},
     d).
Proof.
  intros Hnd. unfold playUnknownStream.
  rewrite playPCMStream_eq by (cbn; by apply MapFacts.keys_set_NoDup).
  cbn. rewrite MapFacts.get_set_eq, destructure_as_arg.
  fold (Map.delete (output tr) (Map.set (output tr)
          {| eid := next_id p; transcoder := Some tr; dispatcher := None; input := stream |}
          (streams p))).
  rewrite delete_set. f_equal. apply player_eq; cbn; try done.
  - by rewrite <- !app_assoc.
  - by rewrite <- !app_assoc.
Qed.

(** ** The representation invariant is preserved *)

Lemma wf_keys p : wf p → NoDup (Map.keys (streams p)).
Proof. by intros (? & _). Qed.

Lemma wf_new_player n : wf (new_player (value:=value) n).
Proof. unfold wf; cbn. split_and!; constructor. Qed.

Lemma omap_sublist {A B} (f : A → option B) (l1 l2 : list A) :
  l1 `sublist_of` l2 → omap f l1 `sublist_of` omap f l2.
Proof.
  induction 1 as [|x l1 l2 _ IH|x l1 l2 _ IH]; cbn.
  - constructor.
  - destruct (f x); [by constructor | done].
  - destruct (f x); [by constructor | done].
Qed.

Lemma Forall_sublist {A} (P : A → Prop) (l1 l2 : list A) :
  l1 `sublist_of` l2 → Forall P l2 → Forall P l1.
Proof.
  intros Hs. rewrite !Forall_forall. intros HP x Hx.
  apply HP. by eapply elem_of_sublist.
Qed.

Lemma Forall_lt_le (n n' : nat) (l : list nat) :
  n ≤ n' → Forall (λ i, i < n) l → Forall (λ i, i < n') l.
Proof.
  intros Hle HF. eapply Forall_impl; [done|]. intros i Hi. cbn in *. lia.
Qed.

(** Dropping entries, allocating, and logging keep the invariant. *)
Lemma wf_sublist p q :
  wf p → streams q `sublist_of` streams p → next_id p ≤ next_id q →
  listeners q = listeners p → wf q.
Proof.
  intros (Hk & He & Hd & Ht & Hel & Hdl & Hl) Hs Hn Hls. unfold wf.
  rewrite Hls. split_and!.
  - apply (sublist_NoDup _ _ Hk). by apply fmap_sublist.
  - apply (sublist_NoDup _ _ He). by apply fmap_sublist.
  - apply (sublist_NoDup _ _ Hd). by apply omap_sublist.
  - apply (sublist_NoDup _ _ Ht). by apply omap_sublist.
  - apply (Forall_lt_le (next_id p)); [done|].
    apply (Forall_sublist _ _ (entry_ids (streams p))); [|done]. by apply fmap_sublist.
  - apply (Forall_lt_le (next_id p)); [done|].
    apply (Forall_sublist _ _ (dispatcher_ids (streams p))); [|done]. by apply omap_sublist.
  - by apply (Forall_lt_le (next_id p)).
Qed.

Lemma wf_log ev p : wf p → wf (log ev p).
Proof. intros Hwf. by apply (wf_sublist p). Qed.

Lemma wf_destroyStream stream p : wf p → wf (destroyStream stream p).
Proof.
  intros Hwf. destruct (destroyStream_rest stream p) as (Hn & _ & Hl).
  apply (wf_sublist p); [done| |lia|done].
  rewrite destroyStream_streams. apply sublist_filter.
Qed.

Lemma wf_destroyAllStreams_loop except ks p :
  wf p → wf (destroyAllStreams_loop except ks p).
Proof.
  revert p. induction ks as [|k ks IH]; intros p Hwf; [done|]. cbn.
  repeat case_match; auto using wf_destroyStream.
Qed.

Lemma wf_destroyAllStreams except p : wf p → wf (destroyAllStreams except p).
Proof. apply wf_destroyAllStreams_loop. Qed.

(** A player holding a single entry. *)
Lemma wf_single k data n c ls tr :
  eid data < n →
  (∀ d, dispatcher data = Some d → d_id d < n) →
  Forall (λ i, i < n) (listened_dispatchers ls) →
  wf {| streams := [(k, data)]; next_id := n; error_listeners := c;
        listeners := ls; trace := tr |}.
Proof.
  intros He Hd Hl. unfold wf, entry_ids, dispatcher_ids, transcoder_ids; cbn.
  split_and!; try done.
  - apply NoDup_singleton.
  - apply NoDup_singleton.
  - destruct (dispatcher data); cbn; [apply NoDup_singleton | constructor].
  - destruct (transcoder data); cbn; [apply NoDup_singleton | constructor].
  - by repeat constructor.
  - destruct (dispatcher data) as [d|]; cbn; repeat constructor. by apply Hd.
Qed.

Lemma wf_entry_lt p k data :
  wf p → Map.get k (streams p) = Some data →
  eid data < next_id p ∧ ∀ d, dispatcher data = Some d → d_id d < next_id p.
Proof.
  intros (_ & _ & _ & _ & Hel & Hdl & _) Hin%MapFacts.get_Some_elem. split.
  - rewrite Forall_forall in Hel. apply Hel.
    apply list_elem_of_fmap. by exists (k, data).
  - intros d Hd. rewrite Forall_forall in Hdl. apply Hdl.
    apply list_elem_of_omap. exists (k, data). split; [done|]. cbn. by rewrite Hd.
Qed.

Lemma wf_playPCMStream s arg p : wf p → wf (playPCMStream s arg p).1.
Proof.
  intros Hwf. pose proof Hwf as (Hk & _ & _ & _ & _ & _ & Hl).
  rewrite playPCMStream_eq by done. cbn.
  destruct (Map.get s (streams p)) as [data|] eqn:Hg.
  - destruct (wf_entry_lt p s data Hwf Hg) as [He Hd].
    apply wf_single; cbn; [lia| |].
    + intros d [= <-]. cbn. lia.
    + unfold listened_dispatchers. rewrite omap_app. cbn.
      apply Forall_app. split; [apply (Forall_lt_le (next_id p)); [lia|done]|].
      repeat constructor.
  - apply wf_single; cbn; [lia| |].
    + intros d [= <-]. cbn. lia.
    + unfold listened_dispatchers. rewrite omap_app. cbn.
      apply Forall_app. split; [apply (Forall_lt_le (next_id p)); [lia|done]|].
      repeat constructor; lia.
Qed.

Lemma wf_playUnknownStream stream arg tr p :
  wf p → wf (playUnknownStream stream arg tr p).1.
Proof.
  intros Hwf. pose proof Hwf as (Hk & _ & _ & _ & _ & _ & Hl).
  rewrite playUnknownStream_eq by done. cbn.
  apply wf_single; cbn; [lia| |].
  - intros d [= <-]. cbn. lia.
  - unfold listened_dispatchers. rewrite omap_app. cbn.
    apply Forall_app. split; [apply (Forall_lt_le (next_id p)); [lia|done]|].
    repeat constructor; lia.
Qed.

Lemma wf_run_handler hd v p : wf p → wf (run_handler hd v p).
Proof.
  intros Hwf. destruct hd; cbn; auto using wf_log, wf_destroyStream.
  unfold transcoder_error. apply wf_log.
  case_bool_decide; auto using wf_log, wf_destroyStream.
Qed.

Lemma wf_emit_from src signal v p : wf p → wf (emit_from src signal v p).
Proof.
  unfold emit_from. generalize (handlers_of src signal p). intros hs. revert p.
  induction hs as [|hd hs IH]; intros p Hwf; cbn; [done|].
  by apply IH, wf_run_handler.
Qed.

Lemma transcoder_error_streams stream e p :
  streams (transcoder_error stream e p) = streams (destroyStream stream p).
Proof. unfold transcoder_error. by case_bool_decide. Qed.

(** Every player a run can reach is well formed. *)
Theorem reachable_wf p : reachable p → wf p.
Proof.
  induction 1 as [n|p q _ IH Hstep]; [apply wf_new_player|].
  destruct Hstep.
  - by apply wf_playUnknownStream.
  - by apply wf_playPCMStream.
  - by apply wf_destroyStream.
  - by apply wf_destroyAllStreams.
  - by apply wf_emit_from.
  - by apply (wf_sublist p).
Qed.

(** No method or callback besides the two [play] methods adds an entry. *)
Lemma destroyAllStreams_loop_sublist except ks p :
  streams (destroyAllStreams_loop except ks p) `sublist_of` streams p.
Proof.
  revert p. induction ks as [|k ks IH]; intros p; [done|]. cbn.
  repeat case_match; try apply IH.
  etrans; [apply IH|]. rewrite destroyStream_streams. apply sublist_filter.
Qed.

Lemma run_handler_sublist hd v p :
  streams (run_handler hd v p) `sublist_of` streams p.
Proof.
  destruct hd; cbn [run_handler];
    rewrite ?transcoder_error_streams, ?destroyStream_streams;
    first [apply sublist_filter | done].
Qed.

Lemma emit_from_sublist src signal v p :
  streams (emit_from src signal v p) `sublist_of` streams p.
Proof.
  unfold emit_from. generalize (handlers_of src signal p). intros hs. revert p.
  induction hs as [|hd hs IH]; intros p; cbn; [done|].
  etrans; [apply IH|]. apply run_handler_sublist.
Qed.

(** The single-active-stream invariant: between any two steps of a run the
    registry holds at most one stream. *)
Theorem reachable_single p : reachable p → length (streams p) ≤ 1.
Proof.
  induction 1 as [n|p q Hp IH Hstep]; [cbn; lia|].
  pose proof (wf_keys p (reachable_wf p Hp)) as Hk.
  destruct Hstep.
  - by rewrite playUnknownStream_eq.
  - by rewrite playPCMStream_eq.
  - rewrite destroyStream_streams.
    etrans; [apply sublist_length, sublist_filter | done].
  - etrans; [apply sublist_length, destroyAllStreams_loop_sublist | done].
  - etrans; [apply sublist_length, emit_from_sublist | done].
  - done.
Qed.

(** ** Membership in the collaborator calls of an entry *)

Lemma elem_of_teardown ev data :
  ev ∈ teardown data ↔
    (∃ t, transcoder data = Some t ∧ ev = EvKill t) ∨
    (∃ d, dispatcher data = Some d ∧ ev = EvDestroy d "end").
Proof.
  unfold teardown, kill_events, destroy_events. rewrite elem_of_app.
  destruct (transcoder data) as [t|], (dispatcher data) as [d|];
    rewrite ?list_elem_of_singleton, ?elem_of_nil.
  all: split;
    [ intros [Hev|Hev]; try done; subst ev; eauto 6
    | intros [(? & Heq & ->)|(? & Heq & ->)]; try done; injection Heq as ->; tauto ].
Qed.

Lemma elem_of_teardown_all ev m :
  ev ∈ teardown_all m ↔ ∃ k data, (k, data) ∈ m ∧ ev ∈ teardown data.
Proof.
  unfold teardown_all. rewrite list_elem_of_bind. split.
  - intros ([k data] & Hev & Hin). by exists k, data.
  - intros (k & data & Hin & Hev). by exists (k, data).
Qed.

Lemma NoDup_omap_inj {A B} (f : A → option B) (l : list A) x y i :
  NoDup (omap f l) → x ∈ l → y ∈ l → f x = Some i → f y = Some i → x = y.
Proof.
  induction l as [|a l IH]; cbn; intros Hnd Hx Hy Hfx Hfy.
  - by apply elem_of_nil in Hx.
  - assert (Hin : ∀ z, z ∈ l → f z = Some i → i ∈ omap f l).
    { intros z Hz Hfz. apply list_elem_of_omap. by exists z. }
    apply elem_of_cons in Hx as [->|Hx]; apply elem_of_cons in Hy as [->|Hy].
    + done.
    + rewrite Hfx in Hnd. apply NoDup_cons in Hnd as [Hni _].
      destruct Hni. by apply (Hin y).
    + rewrite Hfy in Hnd. apply NoDup_cons in Hnd as [Hni _].
      destruct Hni. by apply (Hin x).
    + apply IH; try done. destruct (f a); [by apply NoDup_cons in Hnd as [_ ?] | done].
Qed.

(** In a well-formed registry a dispatcher, and a transcoder, belongs to
    one key only. *)
Lemma wf_dispatcher_key p k1 k2 data1 data2 d1 d2 :
  wf p → (k1, data1) ∈ streams p → (k2, data2) ∈ streams p →
  dispatcher data1 = Some d1 → dispatcher data2 = Some d2 →
  d_id d1 = d_id d2 → k1 = k2.
Proof.
  intros (_ & _ & Hd & _) H1 H2 Hd1 Hd2 Heq.
  assert (Hkv : (k1, data1) = (k2, data2)); [|congruence].
  apply (NoDup_omap_inj _ _ _ _ (d_id d1) Hd H1 H2); cbn.
  - by rewrite Hd1.
  - by rewrite Hd2, Heq.
Qed.

Lemma wf_transcoder_key p k1 k2 data1 data2 t1 t2 :
  wf p → (k1, data1) ∈ streams p → (k2, data2) ∈ streams p →
  transcoder data1 = Some t1 → transcoder data2 = Some t2 →
  t_id t1 = t_id t2 → k1 = k2.
Proof.
  intros (_ & _ & _ & Ht & _) H1 H2 Ht1 Ht2 Heq.
  assert (Hkv : (k1, data1) = (k2, data2)); [|congruence].
  apply (NoDup_omap_inj _ _ _ _ (t_id t1) Ht H1 H2); cbn.
  - by rewrite Ht1.
  - by rewrite Ht2, Heq.
Qed.

(** * The claims *)

(** C4.  [destroyStream(h)] leaves the player unchanged when [h] has no entry.
    When [h] has an entry, it calls [kill] on the entry's transcoder if there
    is one, then [destroy('end')] on the entry's dispatcher if there is one,
    and removes the entry, changing nothing else.  Hence [destroyStream(h)]
    is idempotent: a second call on the same handle changes nothing. *)
Theorem destroyStream_cases h p :
  (Map.get h (streams p) = None → destroyStream h p = p) ∧
  (∀ data, Map.get h (streams p) = Some data →
     streams (destroyStream h p) = Map.delete h (streams p) ∧
     Map.get h (streams (destroyStream h p)) = None ∧
     trace (destroyStream h p) =
       trace p
         ++ match transcoder data with Some t => [EvKill t] | None => [] end
         ++ match dispatcher data with Some d => [EvDestroy d "end"] | None => [] end ∧
     next_id (destroyStream h p) = next_id p ∧
     error_listeners (destroyStream h p) = error_listeners p ∧
     listeners (destroyStream h p) = listeners p) ∧
  destroyStream h (destroyStream h p) = destroyStream h p.
Proof.
  split_and!.
  - intros Hg. by rewrite destroyStream_eq, Hg.
  - intros data Hg. rewrite destroyStream_streams, destroyStream_trace, Hg.
    split_and!; try apply destroyStream_rest; [done| |done].
    apply MapFacts.get_delete_eq.
  - rewrite (destroyStream_eq h (destroyStream h p)), destroyStream_streams.
    by rewrite MapFacts.get_delete_eq.
Qed.

(** C9.  Frame property of [destroyStream(h)]: every entry under another key
    is still there, unchanged and in the same position; the only calls made
    on collaborators are [kill] and [destroy('end')] on the transcoder and
    dispatcher of the entry of [h]; and in a well-formed registry none of
    those calls reaches the transcoder or dispatcher of another entry. *)
Theorem destroyStream_frame h p :
  (∀ k, k ≠ h → Map.get k (streams (destroyStream h p)) = Map.get k (streams p)) ∧
  streams (destroyStream h p) = filter (λ kv, kv.1 ≠ h) (streams p) ∧
  (∃ evs, trace (destroyStream h p) = trace p ++ evs ∧
     (∀ ev, ev ∈ evs →
        ∃ data, Map.get h (streams p) = Some data ∧
          ((∃ t, transcoder data = Some t ∧ ev = EvKill t) ∨
           (∃ d, dispatcher data = Some d ∧ ev = EvDestroy d "end"))) ∧
     (wf p → ∀ k data, k ≠ h → Map.get k (streams p) = Some data →
        (∀ t, transcoder data = Some t → EvKill t ∉ evs) ∧
        (∀ d r, dispatcher data = Some d → EvDestroy d r ∉ evs))).
Proof.
  split_and!.
  - intros k Hne. rewrite destroyStream_streams. by apply MapFacts.get_delete_ne.
  - apply destroyStream_streams.
  - exists (from_option teardown [] (Map.get h (streams p))).
    split; [apply destroyStream_trace|].
    destruct (Map.get h (streams p)) as [data_h|] eqn:Hg; cbn.
    + split.
      * intros ev Hev%elem_of_teardown. by exists data_h.
      * intros Hwf k data Hne Hk.
        apply MapFacts.get_Some_elem in Hg, Hk.
        split.
        -- intros t Ht [(t' & Ht' & [= <-])|(? & _ & [=])]%elem_of_teardown.
           apply Hne. by eapply (wf_transcoder_key p k h).
        -- intros d r Hd [(? & _ & [=])|(d' & Hd' & [= <- _])]%elem_of_teardown.
           apply Hne. by eapply (wf_dispatcher_key p k h).
    + split.
      * intros ev Hev. by apply elem_of_nil in Hev.
      * intros _ k data _ _. split; intros; apply not_elem_of_nil.
Qed.

(** C5.  [destroyAllStreams(except)] by case, on a registry with unique
    keys whose entries are distinct objects.
    With a stream as [except], the entry of that stream (if any) is all that
    remains, and every other entry has been torn down in insertion order.
    With [true], a registry whose last entry is [kv] keeps exactly [kv],
    whatever the entries [m] before it are.  Without [except], the registry
    ends up empty and every entry has been torn down. *)
Theorem destroyAllStreams_cases p :
  NoDup (Map.keys (streams p)) →
  NoDup (entry_ids (streams p)) →
  (∀ h, destroyAllStreams (ExceptStream h) p =
          with_streams (filter (λ kv, kv.1 = h) (streams p))
            (logs (teardown_all (filter (λ kv, kv.1 ≠ h) (streams p))) p)) ∧
  (∀ m kv, streams p = m ++ [kv] →
          destroyAllStreams ExceptTrue p = with_streams [kv] (logs (teardown_all m) p)) ∧
  destroyAllStreams ExceptAbsent p = with_streams [] (logs (teardown_all (streams p)) p).
Proof.
  intros Hk He. split_and!.
  - intros h. by apply destroyAllStreams_stream.
  - intros m kv Hp. by apply destroyAllStreams_true.
  - by apply destroyAllStreams_absent.
Qed.

(** Every entry under a key other than [s] is torn down by the calls
    [teardown_all] lists for the entries other than [s]. *)
Lemma others_torn_down s m k data :
  (k, data) ∈ m → k ≠ s →
  (∀ t, transcoder data = Some t →
     EvKill t ∈ teardown_all (filter (λ kv, kv.1 ≠ s) m)) ∧
  (∀ d, dispatcher data = Some d →
     EvDestroy d "end" ∈ teardown_all (filter (λ kv, kv.1 ≠ s) m)).
Proof.
  intros Hin Hne.
  assert (Hf : (k, data) ∈ filter (λ kv, kv.1 ≠ s) m)
    by (by apply list_elem_of_filter).
  split; intros x Hx; apply elem_of_teardown_all; exists k, data;
    (split; [done|]); apply elem_of_teardown; eauto.
Qed.

(** C1.  After [playPCMStream(s, opts)] on any registry (a map: its keys
    are unique) the registry holds exactly one entry, under the key [s], whose dispatcher is
    the one returned.  Every entry that stood under another key has been
    removed, after [kill] was called on its transcoder (if any) and
    [destroy('end')] on its dispatcher (if any); those calls and the
    construction of the new dispatcher are all the player did. *)
Theorem playPCMStream_single s arg p :
  NoDup (Map.keys (streams p)) →
  let p' := (playPCMStream s arg p).1 in
  let d := (playPCMStream s arg p).2 in
  (∃ data, streams p' = [(s, data)] ∧ dispatcher data = Some d) ∧
  (∀ k, k ≠ s → Map.get k (streams p') = None) ∧
  trace p' =
    trace p ++ teardown_all (filter (λ kv, kv.1 ≠ s) (streams p)) ++ [EvNewDispatcher d] ∧
  (∀ k data, (k, data) ∈ streams p → k ≠ s →
     (∀ t, transcoder data = Some t → EvKill t ∈ trace p') ∧
     (∀ d', dispatcher data = Some d' → EvDestroy d' "end" ∈ trace p')).
Proof.
  intros Hk.
  rewrite playPCMStream_eq by done. cbn. split_and!.
  - eexists. split; [done|]. by destruct (Map.get s (streams p)).
  - intros k Hne. by rewrite decide_False.
  - done.
  - intros k data Hin Hne.
    destruct (others_torn_down s (streams p) k data Hin Hne) as [Ht Hd].
    split; intros x Hx; rewrite !elem_of_app; right; left; eauto.
Qed.


(** What a collaborator's signal does when one callback is registered for it. *)
Lemma emit_from_single src signal v p hd :
  handlers_of src signal p = [hd] → emit_from src signal v p = run_handler hd v p.
Proof. unfold emit_from. by intros ->. Qed.

Lemma handlers_of_old n signal (ls : list listener) :
  Forall (λ i, i < n) (listened_dispatchers ls) →
  filter (λ l, l_emitter l = OfDispatcher n ∧ l_signal l = signal) ls = [].
Proof.
  unfold listened_dispatchers. induction ls as [|l ls IH]; [done|].
  intros HF. cbn in HF. rewrite filter_cons_False.
  - apply IH. destruct (l_emitter l); [done|]. by apply Forall_cons in HF as [_ ?].
  - intros [Heq _]. rewrite Heq in HF. apply Forall_cons in HF as [? _]. lia.
Qed.

(** The callbacks of a dispatcher on which [playPCMStream] has just
    registered its three. *)
Lemma handlers_of_registered n s q (ls : list listener) :
  Forall (λ i, i < n) (listened_dispatchers ls) →
  listeners q =
    ls ++ [ {| l_emitter := OfDispatcher n; l_signal := "speaking";
               l_handler := OnSpeaking |};
            {| l_emitter := OfDispatcher n; l_signal := "end";
               l_handler := OnEnd s |};
            {| l_emitter := OfDispatcher n; l_signal := "error";
               l_handler := OnError s |} ] →
  handlers_of (OfDispatcher n) "speaking" q = [OnSpeaking] ∧
  handlers_of (OfDispatcher n) "end" q = [OnEnd s] ∧
  handlers_of (OfDispatcher n) "error" q = [OnError s].
Proof.
  intros HF Hq. unfold handlers_of. rewrite Hq.
  split_and!; rewrite filter_app, handlers_of_old by done; cbn [app].
  - rewrite filter_cons_True by done.
    by rewrite !filter_cons_False by (cbn; intros [_ ?]; discriminate).
  - rewrite filter_cons_False by (cbn; intros [_ ?]; discriminate).
    rewrite filter_cons_True by done.
    by rewrite !filter_cons_False by (cbn; intros [_ ?]; discriminate).
  - rewrite !filter_cons_False by (cbn; intros [_ ?]; discriminate).
    by rewrite filter_cons_True by done.
Qed.

Lemma destroyAllStreams_loop_rest except ks p :
  next_id (destroyAllStreams_loop except ks p) = next_id p ∧
  listeners (destroyAllStreams_loop except ks p) = listeners p ∧
  error_listeners (destroyAllStreams_loop except ks p) = error_listeners p.
Proof.
  revert p. induction ks as [|k ks IH]; intros p; [done|]. cbn.
  repeat case_match; try apply IH.
  destruct (IH (destroyStream k p)) as (-> & -> & ->).
  by destruct (destroyStream_rest k p) as (-> & -> & ->).
Qed.

(** What the methods and callbacks do to the registered callbacks and to the
    allocation counter. *)
Lemma playPCMStream_listeners s arg q :
  listeners (playPCMStream s arg q).1 =
    listeners q ++
      [ {| l_emitter := OfDispatcher (next_id q); l_signal := "speaking";
           l_handler := OnSpeaking |};
        {| l_emitter := OfDispatcher (next_id q); l_signal := "end";
           l_handler := OnEnd s |};
        {| l_emitter := OfDispatcher (next_id q); l_signal := "error";
           l_handler := OnError s |} ] ∧
  next_id q < next_id (playPCMStream s arg q).1.
Proof.
  unfold playPCMStream, destroyAllStreams.
  destruct (destroyAllStreams_loop_rest (ExceptStream s) (Map.keys (streams q)) q)
    as (Hn & Hl & _).
  set (q1 := destroyAllStreams_loop (ExceptStream s) (Map.keys (streams q)) q) in *.
  cbn. destruct (Map.has s (streams q1)); cbn; rewrite Hn, Hl, <- ?app_assoc;
    (split; [done | lia]).
Qed.

Lemma playUnknownStream_listeners stream arg tr q :
  listeners (playUnknownStream stream arg tr q).1 =
    listeners q ++
      [ {| l_emitter := OfTranscoder (t_id tr); l_signal := "error";
           l_handler := OnTranscoderError stream |};
        {| l_emitter := OfDispatcher (S (next_id q)); l_signal := "speaking";
           l_handler := OnSpeaking |};
        {| l_emitter := OfDispatcher (S (next_id q)); l_signal := "end";
           l_handler := OnEnd (output tr) |};
        {| l_emitter := OfDispatcher (S (next_id q)); l_signal := "error";
           l_handler := OnError (output tr) |} ] ∧
  next_id q < next_id (playUnknownStream stream arg tr q).1.
Proof.
  unfold playUnknownStream.
  match goal with
  | |- context [playPCMStream ?s ?a ?q1] =>
      destruct (playPCMStream_listeners s a q1) as (Hl & Hn); rewrite Hl
  end.
  cbn in *. rewrite <- app_assoc. split; [done | lia].
Qed.

Lemma run_handler_rest hd v q :
  listeners (run_handler hd v q) = listeners q ∧
  next_id (run_handler hd v q) = next_id q.
Proof.
  destruct hd; cbn [run_handler]; unfold transcoder_error;
    try case_bool_decide; cbn;
    by destruct (destroyStream_rest stream q) as (-> & _ & ->) || done.
Qed.

Lemma emit_from_rest src signal v q :
  listeners (emit_from src signal v q) = listeners q ∧
  next_id (emit_from src signal v q) = next_id q.
Proof.
  unfold emit_from. generalize (handlers_of src signal q). intros hs. revert q.
  induction hs as [|hd hs IH]; intros q; cbn; [done|].
  destruct (IH (run_handler hd v q)) as (-> & ->). apply run_handler_rest.
Qed.

(** A step only appends callbacks, and only on dispatchers it has just
    allocated. *)
Lemma step_listeners q q' :
  step q q' →
  ∃ ext, listeners q' = listeners q ++ ext ∧
         Forall (λ i, next_id q ≤ i) (listened_dispatchers ext) ∧
         next_id q ≤ next_id q'.
Proof.
  destruct 1 as [stream arg tr q|stream arg q|stream q|except q|src signal v q|n q].
  - destruct (playUnknownStream_listeners stream arg tr q) as (Hl & Hn).
    eexists. split; [exact Hl|]. split; [|lia]. cbn. repeat constructor; lia.
  - destruct (playPCMStream_listeners stream arg q) as (Hl & Hn).
    eexists. split; [exact Hl|]. split; [|lia]. cbn. repeat constructor.
  - destruct (destroyStream_rest stream q) as (Hn & _ & Hl).
    exists []. rewrite app_nil_r, Hn. split_and!; [done|constructor|done].
  - destruct (destroyAllStreams_loop_rest except (Map.keys (streams q)) q)
      as (Hn & Hl & _).
    exists []. unfold destroyAllStreams. rewrite app_nil_r, Hn.
    split_and!; [done|constructor|done].
  - destruct (emit_from_rest src signal v q) as (Hl & Hn).
    exists []. rewrite app_nil_r, Hn. split_and!; [done|constructor|done].
  - exists []. rewrite app_nil_r. split_and!; [done|constructor|done].
Qed.

Lemma steps_listeners p q :
  rtc step p q →
  ∃ ext, listeners q = listeners p ++ ext ∧
         Forall (λ i, next_id p ≤ i) (listened_dispatchers ext) ∧
         next_id p ≤ next_id q.
Proof.
  intros Hrun. induction Hrun as [p|p q1 q Hstep _ IH].
  - exists []. rewrite app_nil_r. split_and!; [done|constructor|done].
  - destruct (step_listeners _ _ Hstep) as (ext1 & Hl1 & HF1 & Hn1).
    destruct IH as (ext & Hl & HF & Hn).
    exists (ext1 ++ ext). rewrite Hl, Hl1, <- app_assoc.
    split_and!; [done| |lia].
    unfold listened_dispatchers. rewrite omap_app. apply Forall_app. split; [done|].
    eapply Forall_impl; [exact HF|]. intros i Hi. cbn in *. lia.
Qed.

Lemma handlers_of_later n signal (ext : list listener) :
  Forall (λ i, n < i) (listened_dispatchers ext) →
  filter (λ l, l_emitter l = OfDispatcher n ∧ l_signal l = signal) ext = [].
Proof.
  unfold listened_dispatchers. induction ext as [|l ls IH]; [done|].
  intros HF. cbn in HF. rewrite filter_cons_False.
  - apply IH. destruct (l_emitter l); [done|]. by apply Forall_cons in HF as [_ ?].
  - intros [Heq _]. rewrite Heq in HF. apply Forall_cons in HF as [? _]. lia.
Qed.

(** The callbacks of a dispatcher on which [playPCMStream] has registered
    its three, whatever was registered on later dispatchers since. *)
Lemma handlers_of_registered_later n s q (ls ext : list listener) :
  Forall (λ i, i < n) (listened_dispatchers ls) →
  Forall (λ i, n < i) (listened_dispatchers ext) →
  listeners q =
    (ls ++ [ {| l_emitter := OfDispatcher n; l_signal := "speaking";
                l_handler := OnSpeaking |};
             {| l_emitter := OfDispatcher n; l_signal := "end";
                l_handler := OnEnd s |};
             {| l_emitter := OfDispatcher n; l_signal := "error";
                l_handler := OnError s |} ]) ++ ext →
  handlers_of (OfDispatcher n) "speaking" q = [OnSpeaking] ∧
  handlers_of (OfDispatcher n) "end" q = [OnEnd s] ∧
  handlers_of (OfDispatcher n) "error" q = [OnError s].
Proof.
  intros HF HFe Hq. unfold handlers_of. rewrite Hq.
  split_and!; rewrite !filter_app;
    rewrite (handlers_of_old n _ ls) by done;
    rewrite (handlers_of_later n _ ext) by done;
    cbn [app]; rewrite app_nil_r.
  - rewrite filter_cons_True by done.
    by rewrite !filter_cons_False by (cbn; intros [_ ?]; discriminate).
  - rewrite filter_cons_False by (cbn; intros [_ ?]; discriminate).
    rewrite filter_cons_True by done.
    by rewrite !filter_cons_False by (cbn; intros [_ ?]; discriminate).
  - rewrite !filter_cons_False by (cbn; intros [_ ?]; discriminate).
    by rewrite filter_cons_True by done.
Qed.

(** C8.  [playPCMStream(s, opts)] on a well-formed player returns a new
    dispatcher bound to [s] with the given options and stores it in the entry
    of [s].  On that dispatcher exactly one callback is registered per
    signal.  In every state [q] the player reaches afterwards, by whatever
    steps, and in every state with the same registered callbacks, each
    ['speaking'] signal of that dispatcher with value [v] makes exactly one
    call, [voiceConnection.setSpeaking(v)], appended to the trace, and leaves
    the registry alone; both ['end'] and ['error'] run [destroyStream(s)],
    after which [s] has no entry. *)
Theorem playPCMStream_wiring s arg p :
  wf p →
  let p' := (playPCMStream s arg p).1 in
  let d := (playPCMStream s arg p).2 in
  d_stream d = s ∧ d_options d = destructure arg ∧
  (∃ data, Map.get s (streams p') = Some data ∧ dispatcher data = Some d) ∧
  handlers_of (OfDispatcher (d_id d)) "speaking" p' = [OnSpeaking] ∧
  handlers_of (OfDispatcher (d_id d)) "end" p' = [OnEnd s] ∧
  handlers_of (OfDispatcher (d_id d)) "error" p' = [OnError s] ∧
  (∀ q v, listeners q = listeners p' ∨ rtc step p' q →
     emit_from (OfDispatcher (d_id d)) "speaking" v q = log (EvSetSpeaking v) q ∧
     trace (emit_from (OfDispatcher (d_id d)) "speaking" v q) =
       trace q ++ [EvSetSpeaking v] ∧
     streams (emit_from (OfDispatcher (d_id d)) "speaking" v q) = streams q ∧
     emit_from (OfDispatcher (d_id d)) "end" v q = destroyStream s q ∧
     emit_from (OfDispatcher (d_id d)) "error" v q = destroyStream s q ∧
     Map.get s (streams (destroyStream s q)) = None).
Proof.
  intros Hwf. pose proof Hwf as (Hk & _ & _ & _ & _ & _ & Hl).
  assert (Hlater : ∀ q, listeners q = listeners (playPCMStream s arg p).1 ∨
                        rtc step (playPCMStream s arg p).1 q →
            ∃ ext, Forall (λ i, next_id p < i) (listened_dispatchers ext) ∧
                   listeners q = listeners (playPCMStream s arg p).1 ++ ext).
  { intros q [Hq|Hrun].
    - exists []. rewrite app_nil_r. split; [constructor|done].
    - destruct (steps_listeners _ _ Hrun) as (ext & Hq & HF & _).
      exists ext. split; [|done].
      destruct (playPCMStream_listeners s arg p) as (_ & Hn).
      eapply Forall_impl; [exact HF|]. intros i Hi. cbn in *. lia. }
  revert Hlater. rewrite playPCMStream_eq by done.
  cbn -[handlers_of emit_from]. intros Hlater.
  match goal with
  | |- context [handlers_of _ _ ?q'] =>
      destruct (handlers_of_registered (next_id p) s q' (listeners p) Hl eq_refl)
        as (Hs' & He' & Hr')
  end.
  split_and!; try done.
  - eexists. rewrite decide_True by done. split; [done|].
    by destruct (Map.get s (streams p)).
  - intros q v Hq. destruct (Hlater q Hq) as (ext & HFe & Hlq).
    destruct (handlers_of_registered_later _ s q (listeners p) ext Hl HFe Hlq)
      as (Hs & He & Hr).
    rewrite (emit_from_single _ _ v q OnSpeaking) by done.
    rewrite (emit_from_single _ _ v q (OnEnd s)) by done.
    rewrite (emit_from_single _ _ v q (OnError s)) by done.
    split_and!; try done.
    rewrite destroyStream_streams. apply MapFacts.get_delete_eq.
Qed.

(** C7.  [playUnknownStream(input, opts)] first calls [prism.transcode]
    with type ['ffmpeg'], the input as media and the arguments of the
    canonical PCM format (s16le, 48000 Hz, 2 channels) followed by ['-ss'] and
    [String(seek)], where [seek] is [opts.seek] or [0] when missing.  In the
    state [p1] it then reaches, the transcoder's output is registered with an
    entry holding the transcoder, no dispatcher and the original input, all
    other keys are untouched, and the error callback is registered on the
    transcoder.  The result is that of [playPCMStream] on the transcoder's
    output from [p1], called with the options after defaults, which is the
    same as calling it with the caller's options. *)
Theorem playUnknownStream_delegates stream arg tr p :
  ∃ p1,
    trace p1 =
      trace p ++
        [EvTranscode
           {| type_ := "ffmpeg"; media := stream;
              cfg_ffmpegArguments :=
                [ "-analyzeduration"; "0"; "-loglevel"; "0";
                  "-f"; "s16le"; "-ar"; "48000"; "-ac"; "2";
                  "-ss"; String_ (default num0 (arg ≫= arg_seek)) ] |}] ∧
    Map.get (output tr) (streams p1) =
      Some {| eid := next_id p; transcoder := Some tr; dispatcher := None;
              input := stream |} ∧
    (∀ k, k ≠ output tr → Map.get k (streams p1) = Map.get k (streams p)) ∧
    listeners p1 =
      listeners p ++
        [ {| l_emitter := OfTranscoder (t_id tr); l_signal := "error";
             l_handler := OnTranscoderError stream |} ] ∧
    playUnknownStream stream arg tr p =
      playPCMStream (output tr) (Some (as_arg (destructure arg))) p1 ∧
    playPCMStream (output tr) (Some (as_arg (destructure arg))) p1 =
      playPCMStream (output tr) arg p1.
Proof.
  eexists. split_and!; cycle 4.
  - unfold playUnknownStream. reflexivity.
  - unfold playPCMStream. by rewrite destructure_as_arg.
  - cbn. by destruct arg as [[[?|] ? ?]|].
  - cbn. apply MapFacts.get_set_eq.
  - intros k Hne. cbn. by apply MapFacts.get_set_ne.
  - done.
Qed.

(** C2, as amended.  The transcoder ['error'] callback registered by
    [playUnknownStream] always ends by emitting ['warn'] with the message
    ["prism transcoder error - " + e]; when at least one ['error'] listener is
    registered on the player it emits ['error'] with [e] just before that
    ['warn'], and when none is registered it emits the ['warn'] alone. *)
Theorem transcoder_error_signals stream e p :
  let p' := run_handler (OnTranscoderError stream) e p in
  let warn := EvEmitWarn ("prism transcoder error - " +:+ String_ e) in
  (0 < error_listeners p →
     trace p' = trace (destroyStream stream p) ++ [EvEmitError e; warn]) ∧
  (error_listeners p = 0 →
     trace p' = trace (destroyStream stream p) ++ [warn]).
Proof.
  cbn. unfold transcoder_error.
  destruct (destroyStream_rest stream p) as (_ & -> & _).
  split; intros Hn; case_bool_decide; try lia; cbn; [|done].
  by rewrite <- app_assoc.
Qed.

(** X13.  The transcoder ['error'] callback calls [destroyStream] with the media
    handed to [playUnknownStream], whereas the entry is registered under the
    transcoder's output: whenever the two differ the entry stays in the
    registry, with its transcoder and dispatcher untouched. *)
Lemma transcoder_error_wrong_key stream arg tr e p :
  wf p → stream ≠ output tr →
  let p1 := (playUnknownStream stream arg tr p).1 in
  let p' := run_handler (OnTranscoderError stream) e p1 in
  streams p' = streams p1 ∧
  (∃ data, Map.get (output tr) (streams p') = Some data ∧ transcoder data = Some tr) ∧
  destroyStream stream p1 = p1.
Proof.
  intros Hwf Hne p1 p'. pose proof (wf_keys p Hwf) as Hk.
  assert (Hs : ∃ d, streams p1 =
            [(output tr, {| eid := next_id p; transcoder := Some tr;
                            dispatcher := Some d; input := stream |})]).
  { unfold p1. rewrite playUnknownStream_eq by done. by eexists. }
  destruct Hs as [d Hs].
  assert (Hd : destroyStream stream p1 = p1).
  { rewrite destroyStream_eq, Hs. cbn. by rewrite decide_False. }
  assert (Hp' : streams p' = streams p1).
  { unfold p'. cbn [run_handler]. by rewrite transcoder_error_streams, Hd. }
  split_and!; [done| |done].
  rewrite Hp', Hs. cbn. rewrite decide_True by done. by eexists.
Qed.

(** C6, as amended.  [currentTranscoder] never changes the player.  On a
    non-empty registry it returns the [transcoder] field of the last entry
    in insertion order (which may itself be absent); on an empty registry
    [last()] is [undefined] and the property access throws a [TypeError]. *)
Theorem currentTranscoder_last p :
  (currentTranscoder p).1 = p ∧
  (∀ m kv, streams p = m ++ [kv] →
     (currentTranscoder p).2 = Return (transcoder kv.2)) ∧
  (streams p = [] → (currentTranscoder p).2 = Throw "TypeError").
Proof.
  unfold currentTranscoder. split_and!.
  - by destruct (Map.last (streams p)).
  - intros m kv ->. by rewrite MapFacts.last_snoc.
  - by intros ->.
Qed.

End Facts.

(** * The claims on concrete players *)

(** The player of the examples is one a run reaches. *)
Lemma playing_reachable n : reachable (Examples.playing n).
Proof. apply (reachable_step (new_player n)); constructor. Qed.

(** C4 on the three-stream registry: stream 20 has an entry with transcoder
    and dispatcher, so both are shut down, in that order, and the entry is
    removed; stream 99 has none and nothing happens. *)
Lemma destroyStream_cases_witness :
  Map.get 20 (streams Examples.three_streams) = Some Examples.entry20 ∧
  Map.get 99 (streams Examples.three_streams) = None ∧
  trace (destroyStream 20 Examples.three_streams) =
    [EvKill Examples.tr7; EvDestroy Examples.d3 "end"] ∧
  Map.get 20 (streams (destroyStream 20 Examples.three_streams)) = None ∧
  destroyStream 99 Examples.three_streams = Examples.three_streams.
Proof.
  destruct (destroyStream_cases 20 Examples.three_streams) as (_ & Hsome & _).
  destruct (Hsome Examples.entry20 eq_refl) as (_ & Hgone & Htrace & _).
  destruct (destroyStream_cases 99 Examples.three_streams) as (Hnone & _).
  split_and!; [reflexivity | reflexivity | exact Htrace | exact Hgone | exact (Hnone eq_refl)].
Defined.

(** C9 on the three-stream registry: destroying stream 20 keeps the entry of
    stream 30 and does not call [kill] on its transcoder. *)
Lemma destroyStream_frame_witness :
  wf Examples.three_streams ∧
  Map.get 30 (streams (destroyStream 20 Examples.three_streams)) = Some Examples.entry30 ∧
  ∃ evs, trace (destroyStream 20 Examples.three_streams) =
           trace Examples.three_streams ++ evs ∧
         EvKill Examples.tr8 ∉ evs.
Proof.
  assert (Hwf : wf Examples.three_streams) by compute_done.
  destruct (destroyStream_frame 20 Examples.three_streams)
    as (Hget & _ & evs & Htrace & _ & Hothers).
  split_and!; [exact Hwf | by rewrite Hget | ].
  exists evs. split; [exact Htrace|].
  by apply (Hothers Hwf 30 Examples.entry30).
Defined.

(** C5 on the three-stream registry: with stream 10 only its entry remains,
    with [true] only the last entry remains, with nothing none remains. *)
Lemma destroyAllStreams_cases_witness :
  NoDup (Map.keys (streams Examples.three_streams)) ∧
  NoDup (entry_ids (streams Examples.three_streams)) ∧
  streams (destroyAllStreams (ExceptStream 10) Examples.three_streams) =
    [(10, Examples.entry10)] ∧
  streams (destroyAllStreams ExceptTrue Examples.three_streams) =
    [(30, Examples.entry30)] ∧
  streams (destroyAllStreams ExceptAbsent Examples.three_streams) = [].
Proof.
  assert (Hk : NoDup (Map.keys (streams Examples.three_streams))) by compute_done.
  assert (He : NoDup (entry_ids (streams Examples.three_streams))) by compute_done.
  destruct (destroyAllStreams_cases Examples.three_streams Hk He) as (Hs & Ht & Ha).
  split_and!.
  - exact Hk.
  - exact He.
  - by rewrite Hs.
  - by rewrite (Ht [(10, Examples.entry10); (20, Examples.entry20)]
                   (30, Examples.entry30) eq_refl).
  - by rewrite Ha.
Defined.

(** C1 on a player that is playing stream 2 through transcoder [tr]:
    after [playPCMStream(5)] only stream 5 is registered and [tr] has been
    killed. *)
Lemma playPCMStream_single_witness :
  NoDup (Map.keys (streams (Examples.playing 1))) ∧
  Map.keys (streams (playPCMStream 5 None (Examples.playing 1)).1) = [5] ∧
  Map.get 2 (streams (playPCMStream 5 None (Examples.playing 1)).1) = None ∧
  EvKill Examples.tr ∈ trace (playPCMStream 5 None (Examples.playing 1)).1.
Proof.
  assert (Hwf : NoDup (Map.keys (streams (Examples.playing 1)))) by compute_done.
  destruct (playPCMStream_single 5 None (Examples.playing 1) Hwf)
    as ((data & Hstreams & _) & Hgone & _ & Hdestroyed).
  split_and!; [exact Hwf | by rewrite Hstreams | by apply Hgone | ].
  eapply (Hdestroyed 2); [apply list_elem_of_here | done | reflexivity].
Defined.


(** C8 on a player that is playing stream 2: the dispatcher returned by
    [playPCMStream(5)] is bound to stream 5.  Its ['speaking'] signal reaches
    [setSpeaking], right away and also after the player has gone on to play
    another input; its ['end'] signal removes the entry of stream 5. *)
Lemma playPCMStream_wiring_witness :
  let r := playPCMStream 5 None (Examples.playing 1) in
  let later := (playUnknownStream 8 None Examples.tr7 r.1).1 in
  wf (Examples.playing 1) ∧
  rtc step r.1 later ∧
  d_stream r.2 = 5 ∧
  trace (emit_from (OfDispatcher (d_id r.2)) "speaking" 1%Z r.1) =
    trace r.1 ++ [EvSetSpeaking 1%Z] ∧
  trace (emit_from (OfDispatcher (d_id r.2)) "speaking" 0%Z later) =
    trace later ++ [EvSetSpeaking 0%Z] ∧
  Map.get 5 (streams (emit_from (OfDispatcher (d_id r.2)) "end" 0%Z r.1)) = None.
Proof.
  cbv zeta.
  assert (Hwf : wf (Examples.playing 1)) by compute_done.
  assert (Hrun : rtc step (playPCMStream 5 None (Examples.playing 1)).1
                   (playUnknownStream 8 None Examples.tr7
                      (playPCMStream 5 None (Examples.playing 1)).1).1)
    by (apply rtc_once; constructor).
  destruct (playPCMStream_wiring 5 None (Examples.playing 1) Hwf)
    as (Hbound & _ & _ & _ & _ & _ & Hemit).
  destruct (Hemit (playPCMStream 5 None (Examples.playing 1)).1 1%Z
              (or_introl eq_refl)) as (_ & Hnow & _).
  destruct (Hemit _ 0%Z (or_intror Hrun)) as (_ & Hlater & _).
  destruct (Hemit (playPCMStream 5 None (Examples.playing 1)).1 0%Z
              (or_introl eq_refl)) as (_ & _ & _ & Hend & _ & Hgone).
  split_and!; [exact Hwf | exact Hrun | exact Hbound | exact Hnow | exact Hlater | ].
  rewrite Hend. exact Hgone.
Defined.

(** C7 on a new player: the media 1 is transcoded with the canonical
    arguments and seek [0], and playback is delegated to [playPCMStream] on
    the transcoder's output 2. *)
Lemma playUnknownStream_delegates_witness :
  ∃ p1,
    trace p1 =
      [EvTranscode
         {| type_ := "ffmpeg"; media := 1;
            cfg_ffmpegArguments :=
              [ "-analyzeduration"; "0"; "-loglevel"; "0";
                "-f"; "s16le"; "-ar"; "48000"; "-ac"; "2"; "-ss"; "0" ] |}] ∧
    Map.get 3 (streams p1) = None ∧
    playUnknownStream Examples.media None Examples.tr (new_player (value:=Z) 0) =
      playPCMStream 2 None p1.
Proof.
  destruct (playUnknownStream_delegates Examples.media None Examples.tr
              (new_player (value:=Z) 0))
    as (p1 & Htrace & _ & Hother & _ & Hdelegate & Hopts).
  exists p1. split_and!.
  - exact Htrace.
  - by rewrite (Hother 3).
  - by rewrite Hdelegate, Hopts.
Defined.

(** C2, as claimed, fails: with one ['error'] listener registered, a
    transcoder error is emitted as ['error'] and as ['warn'] as well. *)
Lemma warn_despite_error_listener :
  let p := Examples.playing 1 in
  let p' := emit_from (OfTranscoder 7) "error" 42%Z p in
  0 < error_listeners p ∧
  trace p' = trace p ++ [EvEmitError 42%Z; EvEmitWarn "prism transcoder error - 42"].
Proof. split; [compute_done | reflexivity]. Qed.

(** C2, as amended, on the players of the examples. *)
Lemma transcoder_error_signals_witness :
  0 < error_listeners (Examples.playing 1) ∧
  error_listeners (Examples.playing 0) = 0 ∧
  trace (run_handler (OnTranscoderError Examples.media) 42%Z (Examples.playing 1)) =
    trace (Examples.playing 1)
      ++ [EvEmitError 42%Z; EvEmitWarn "prism transcoder error - 42"] ∧
  trace (run_handler (OnTranscoderError Examples.media) 42%Z (Examples.playing 0)) =
    trace (Examples.playing 0) ++ [EvEmitWarn "prism transcoder error - 42"].
Proof.
  assert (H1 : 0 < error_listeners (Examples.playing 1)) by compute_done.
  destruct (transcoder_error_signals Examples.media 42%Z (Examples.playing 1)) as (Hl & _).
  destruct (transcoder_error_signals Examples.media 42%Z (Examples.playing 0)) as (_ & Hn).
  split_and!; [exact H1 | reflexivity | exact (Hl H1) | exact (Hn eq_refl)].
Defined.

(** C3 fails on the code: after [playUnknownStream(1)] with the transcoder
    output 2 and no ['error'] listener, a transcoder error leaves the entry
    of stream 2 in the registry, calls neither [kill] nor [destroy], and only
    emits ['warn']; the callback ran [destroyStream(1)], and 1 is not a key. *)
Lemma transcoder_error_leaves_entry :
  let p := Examples.playing 0 in
  let p' := emit_from (OfTranscoder 7) "error" 42%Z p in
  Map.get 2 (streams p) = Some Examples.playing_entry ∧
  handlers_of (OfTranscoder 7) "error" p = [OnTranscoderError 1] ∧
  streams p' = streams p ∧
  trace p' = trace p ++ [EvEmitWarn "prism transcoder error - 42"].
Proof. split_and!; reflexivity. Qed.

(** C6, as claimed, fails: on a new player, whose registry is empty,
    [currentTranscoder] throws instead of returning an absent value. *)
Lemma currentTranscoder_empty_throws :
  streams (new_player (value:=Z) 0) = [] ∧
  (currentTranscoder (new_player (value:=Z) 0)).2 = Throw "TypeError" ∧
  (currentTranscoder (new_player (value:=Z) 0)).2 ≠ Return None.
Proof. split_and!; [reflexivity | reflexivity | discriminate]. Qed.

(** C6, as amended, on the three-stream registry and on a new player. *)
Lemma currentTranscoder_last_witness :
  (currentTranscoder Examples.three_streams).2 = Return (Some Examples.tr8) ∧
  (currentTranscoder (new_player (value:=Z) 0)).2 = Throw "TypeError".
Proof.
  destruct (currentTranscoder_last Examples.three_streams) as (_ & Hlast & _).
  destruct (currentTranscoder_last (new_player (value:=Z) 0)) as (_ & _ & Hempty).
  split.
  - exact (Hlast [(10, Examples.entry10); (20, Examples.entry20)]
                 (30, Examples.entry30) eq_refl).
  - exact (Hempty eq_refl).
Defined.

(** * Further properties of the player *)
Section MoreFacts.
Context {value : Type} `{!JSValue value}.
Implicit Types (p q : AudioPlayer (value:=value)).
Implicit Types (m : list (handle * StreamEntry (value:=value))).
Implicit Types (stream h k s a b : handle) (data : StreamEntry (value:=value)).

(** X1.  Whatever the consumers and collaborators do, the player stays well
    formed and its registry never holds more than one stream between two
    steps: the two [play] methods leave exactly one entry and nothing else
    adds one. *)
Theorem run_invariants p : reachable p → wf p ∧ length (streams p) ≤ 1.
Proof. intros Hr. split; [by apply reachable_wf | by apply reachable_single]. Qed.

(** X2.  [playUnknownStream] on a registry with unique keys leaves exactly
    one entry: under the transcoder's output, holding that transcoder, the
    dispatcher it returns and the original input.  That dispatcher is bound
    to the transcoder's output with the options after defaults.  The player
    called [prism.transcode], tore down every entry under another key in
    insertion order, and constructed the dispatcher, in that order. *)
Theorem playUnknownStream_registry stream arg tr p :
  NoDup (Map.keys (streams p)) →
  let p' := (playUnknownStream stream arg tr p).1 in
  let d := (playUnknownStream stream arg tr p).2 in
  streams p' =
    [(output tr, {| eid := next_id p; transcoder := Some tr;
                    dispatcher := Some d; input := stream |})] ∧
  d_stream d = output tr ∧ d_options d = destructure arg ∧
  trace p' =
    trace p
      ++ [EvTranscode
            {| type_ := "ffmpeg"; media := stream;
               cfg_ffmpegArguments :=
                 ffmpegArguments ++ ["-ss"; String_ (seek (destructure arg))] |}]
      ++ teardown_all (filter (λ kv, kv.1 ≠ output tr) (streams p))
      ++ [EvNewDispatcher d].
Proof. intros Hk. by rewrite playUnknownStream_eq. Qed.

(** X3.  Right after a [play] method [currentTranscoder] does not throw.
    After [playUnknownStream] it is the transcoder just started; after
    [playPCMStream(s)] it is the transcoder the entry of [s] already had, and
    absent when [s] was not registered. *)
Theorem currentTranscoder_after_play stream s arg tr p :
  NoDup (Map.keys (streams p)) →
  (currentTranscoder (playUnknownStream stream arg tr p).1).2 = Return (Some tr) ∧
  (currentTranscoder (playPCMStream s arg p).1).2 =
    Return (Map.get s (streams p) ≫= transcoder).
Proof.
  intros Hk. rewrite playUnknownStream_eq, playPCMStream_eq by done.
  split; [done|]. unfold currentTranscoder. cbn.
  by destruct (Map.get s (streams p)).
Qed.

(** X4.  Two [destroyStream] calls can be swapped: either order leaves the
    same registry, allocation counter and callbacks, and makes the same
    calls on the collaborators, up to their order. *)
Theorem destroyStream_comm a b p :
  let pab := destroyStream b (destroyStream a p) in
  let pba := destroyStream a (destroyStream b p) in
  streams pab = streams pba ∧
  trace pab ≡ₚ trace pba ∧
  next_id pab = next_id pba ∧ listeners pab = listeners pba ∧
  error_listeners pab = error_listeners pba.
Proof.
  cbn.
  destruct (destroyStream_rest b (destroyStream a p)) as (-> & -> & ->).
  destruct (destroyStream_rest a (destroyStream b p)) as (-> & -> & ->).
  destruct (destroyStream_rest a p) as (-> & -> & ->).
  destruct (destroyStream_rest b p) as (-> & -> & ->).
  rewrite !destroyStream_streams, !destroyStream_trace, !destroyStream_streams.
  split_and!; try done.
  - unfold Map.delete. rewrite !list_filter_filter.
    apply list_filter_iff. intros kv. tauto.
  - destruct (decide (a = b)) as [->|Hne]; [done|].
    rewrite (MapFacts.get_delete_ne a b), (MapFacts.get_delete_ne b a) by done.
    rewrite <- !app_assoc. apply Permutation_app_head, Permutation_app_comm.
Qed.

Lemma destroyAllStreams_loop_keeps h ks p :
  Map.get h (streams (destroyAllStreams_loop (ExceptStream h) ks p)) =
    Map.get h (streams p).
Proof.
  revert p. induction ks as [|k ks IH]; intros p; [done|]. cbn.
  destruct (Map.has k (streams p)); cbn; [|apply IH].
  case_bool_decide as Hk; [apply IH|].
  rewrite IH, destroyStream_streams. by apply MapFacts.get_delete_ne.
Qed.

(** X5.  On any registry [destroyAllStreams] only removes entries: what
    remains is a sublist of what was there, so no entry is added, changed or
    moved.  With a stream as [except] the entry of that stream is left as it
    was.  No object is allocated and no callback is registered or removed. *)
Theorem destroyAllStreams_only_removes except p :
  streams (destroyAllStreams except p) `sublist_of` streams p ∧
  (∀ h, Map.get h (streams (destroyAllStreams (ExceptStream h) p)) =
          Map.get h (streams p)) ∧
  next_id (destroyAllStreams except p) = next_id p ∧
  listeners (destroyAllStreams except p) = listeners p ∧
  error_listeners (destroyAllStreams except p) = error_listeners p.
Proof.
  split_and!; try apply destroyAllStreams_loop_rest.
  - apply destroyAllStreams_loop_sublist.
  - intros h. apply destroyAllStreams_loop_keeps.
Qed.

(** X6.  Passing a stream that is not registered as [except] is the same as
    passing nothing: every entry is destroyed. *)
Theorem destroyAllStreams_unknown_stream h p :
  NoDup (Map.keys (streams p)) →
  Map.get h (streams p) = None →
  destroyAllStreams (ExceptStream h) p = destroyAllStreams ExceptAbsent p ∧
  streams (destroyAllStreams (ExceptStream h) p) = [].
Proof.
  intros Hk Hg.
  rewrite destroyAllStreams_stream, destroyAllStreams_absent by done.
  rewrite MapFacts.filter_key, Hg by done.
  fold (Map.delete h (streams p)).
  by rewrite MapFacts.delete_absent by (by apply MapFacts.get_None).
Qed.

Lemma filter_never {A} (l : list A) : filter (λ _, False) l = [].
Proof.
  induction l as [|x l IH]; [done|].
  rewrite filter_cons_False by tauto. apply IH.
Qed.

(** X7.  [destroyAllStreams] is idempotent in each of its three modes: a
    second call with the same argument changes nothing and calls no
    collaborator. *)
Theorem destroyAllStreams_idem except p :
  NoDup (Map.keys (streams p)) →
  NoDup (entry_ids (streams p)) →
  destroyAllStreams except (destroyAllStreams except p) = destroyAllStreams except p.
Proof.
  intros Hk He. destruct except as [h| |].
  - rewrite (destroyAllStreams_stream h p) by done.
    rewrite destroyAllStreams_stream
      by (cbn; apply (sublist_NoDup _ _ Hk), fmap_sublist, sublist_filter).
    cbn. rewrite !list_filter_filter.
    rewrite (list_filter_iff (λ kv, kv.1 ≠ h ∧ kv.1 = h) (λ _, False)) by (intros; tauto).
    rewrite (list_filter_iff (λ kv, kv.1 = h ∧ kv.1 = h) (λ kv, kv.1 = h)) by (intros; tauto).
    apply player_eq; cbn; try done.
    rewrite filter_never. cbn. by rewrite app_nil_r.
  - destruct (list.last (streams p)) as [kv0|] eqn:Hl.
    + apply last_Some in Hl as [m0 Hp].
      rewrite (destroyAllStreams_true m0 kv0 p) by done.
      rewrite (destroyAllStreams_true [] kv0); cbn; try done.
      * apply player_eq; cbn; try done. by rewrite app_nil_r.
      * apply NoDup_singleton.
      * apply NoDup_singleton.
    + apply last_None in Hl. unfold destroyAllStreams.
      rewrite Hl. cbn. by rewrite Hl.
  - rewrite (destroyAllStreams_absent p) by done.
    rewrite destroyAllStreams_absent by (cbn; constructor).
    apply player_eq; cbn; try done. by rewrite app_nil_r.
Qed.

(** The callbacks of a dispatcher [n] once [playPCMStream] has run again and
    registered its three callbacks on a later dispatcher [n']: those of [n]
    are all still there. *)
Lemma handlers_of_stale n n' s s' q (ls : list listener) :
  Forall (λ i, i < n) (listened_dispatchers ls) → n ≠ n' →
  listeners q =
    (ls ++ [ {| l_emitter := OfDispatcher n; l_signal := "speaking";
                l_handler := OnSpeaking |};
             {| l_emitter := OfDispatcher n; l_signal := "end";
                l_handler := OnEnd s |};
             {| l_emitter := OfDispatcher n; l_signal := "error";
                l_handler := OnError s |} ])
      ++ [ {| l_emitter := OfDispatcher n'; l_signal := "speaking";
              l_handler := OnSpeaking |};
           {| l_emitter := OfDispatcher n'; l_signal := "end";
              l_handler := OnEnd s' |};
           {| l_emitter := OfDispatcher n'; l_signal := "error";
              l_handler := OnError s' |} ] →
  handlers_of (OfDispatcher n) "end" q = [OnEnd s] ∧
  handlers_of (OfDispatcher n) "error" q = [OnError s].
Proof.
  intros HF Hne Hq. unfold handlers_of. rewrite Hq.
  split; rewrite !filter_app, handlers_of_old by done; cbn [app].
  - rewrite filter_cons_False by (cbn; intros [_ ?]; discriminate).
    rewrite filter_cons_True by done.
    rewrite filter_cons_False by (cbn; intros [_ ?]; discriminate).
    by rewrite !filter_cons_False by (cbn; intros [[= ?] _]; done).
  - rewrite !filter_cons_False by (cbn; intros [_ ?]; discriminate).
    rewrite filter_cons_True by done.
    by rewrite !filter_cons_False by (cbn; intros [[= ?] _]; done).
Qed.

(** X8.  Once [playPCMStream(s)] has returned on a well-formed player, an
    ['end'] or ['error'] signal of the returned dispatcher empties the
    registry: the player calls [kill] on the transcoder the entry carried
    (if any) and [destroy('end')] on the very dispatcher that raised the
    signal, then removes the entry. *)
Theorem dispatcher_signal_clears s arg p signal v :
  wf p → signal = "end" ∨ signal = "error" →
  let p' := (playPCMStream s arg p).1 in
  let d := (playPCMStream s arg p).2 in
  let q := emit_from (OfDispatcher (d_id d)) signal v p' in
  streams q = [] ∧
  trace q =
    trace p'
      ++ match Map.get s (streams p) ≫= transcoder with
         | Some t => [EvKill t]
         | None => []
         end
      ++ [EvDestroy d "end"].
Proof.
  intros Hwf Hsig. pose proof Hwf as (Hk & _ & _ & _ & _ & _ & Hl).
  rewrite playPCMStream_eq by done. cbn -[handlers_of emit_from].
  match goal with
  | |- context [emit_from _ _ _ ?q'] =>
      destruct (handlers_of_registered (next_id p) s q' (listeners p) Hl eq_refl)
        as (_ & He & Hr)
  end.
  match goal with
  | |- context [emit_from ?src _ _ ?q'] =>
      assert (Hemit : emit_from src signal v q' = destroyStream s q')
        by (destruct Hsig as [-> | ->];
            [ by rewrite (emit_from_single _ _ v _ (OnEnd s))
            | by rewrite (emit_from_single _ _ v _ (OnError s)) ])
  end.
  rewrite Hemit.
  rewrite destroyStream_streams, destroyStream_trace. cbn.
  rewrite decide_False by tauto. rewrite decide_True by done.
  split; [done|]. f_equal.
  unfold teardown, kill_events, destroy_events.
  destruct (Map.get s (streams p)) as [data|]; cbn; [|done].
  by destruct (transcoder data).
Qed.

(** X9.  The player never unregisters a callback, and the ['end'] and
    ['error'] callbacks name the stream, not the dispatcher.  So when
    [playPCMStream(s)] is called twice, a late ['end'] or ['error'] signal of
    the first dispatcher removes the entry now held by the second one and
    calls [destroy('end')] on the second dispatcher. *)
Theorem stale_dispatcher_signal s arg1 arg2 p signal v :
  wf p → signal = "end" ∨ signal = "error" →
  let r1 := playPCMStream s arg1 p in
  let r2 := playPCMStream s arg2 r1.1 in
  let q := emit_from (OfDispatcher (d_id r1.2)) signal v r2.1 in
  d_id r1.2 ≠ d_id r2.2 ∧
  (∃ data, streams r2.1 = [(s, data)] ∧ dispatcher data = Some r2.2) ∧
  streams q = [] ∧
  trace q =
    trace r2.1
      ++ match Map.get s (streams p) ≫= transcoder with
         | Some t => [EvKill t]
         | None => []
         end
      ++ [EvDestroy r2.2 "end"].
Proof.
  intros Hwf Hsig. pose proof Hwf as (Hk & _ & _ & _ & _ & _ & Hl).
  rewrite (playPCMStream_eq s arg1 p) by done. cbn -[handlers_of emit_from playPCMStream].
  rewrite playPCMStream_eq by (cbn; apply NoDup_singleton).
  cbn -[handlers_of emit_from]. rewrite !decide_True by done.
  cbn -[handlers_of emit_from].
  set (n' := match Map.get s (streams p) with
             | Some _ => S (next_id p)
             | None => S (S (next_id p))
             end).
  assert (Hn' : next_id p ≠ n') by (unfold n'; destruct (Map.get s (streams p)); lia).
  match goal with
  | |- context [emit_from _ _ _ ?q'] =>
      destruct (handlers_of_stale (next_id p) n' s s q' (listeners p) Hl Hn' eq_refl)
        as (He & Hr)
  end.
  match goal with
  | |- context [emit_from ?src _ _ ?q'] =>
      assert (Hemit : emit_from src signal v q' = destroyStream s q')
        by (destruct Hsig as [-> | ->];
            [ by rewrite (emit_from_single _ _ v _ (OnEnd s))
            | by rewrite (emit_from_single _ _ v _ (OnError s)) ])
  end.
  rewrite Hemit.
  rewrite destroyStream_streams, destroyStream_trace. cbn.
  rewrite (decide_False (P := s ≠ s)) by tauto.
  rewrite (decide_True (P := s = s)) by done.
  split_and!; [done | by eexists | done |]. f_equal.
  unfold teardown, kill_events, destroy_events.
  destruct (Map.get s (streams p)) as [data|]; cbn; [|done].
  by destruct (transcoder data).
Qed.

(** X12.  [playPCMStream(s)] on a registry with unique keys where [s] is
    not registered creates the entry of [s] as a new object with no
    transcoder, the returned dispatcher, and [s] itself as input; two objects
    are allocated, first the dispatcher, then the entry. *)
Theorem playPCMStream_new_entry s arg p :
  NoDup (Map.keys (streams p)) →
  Map.get s (streams p) = None →
  let p' := (playPCMStream s arg p).1 in
  let d := (playPCMStream s arg p).2 in
  streams p' = [(s, {| eid := S (next_id p); transcoder := None;
                       dispatcher := Some d; input := s |})] ∧
  d_id d = next_id p ∧ next_id p' = S (S (next_id p)).
Proof. intros Hk Hg. rewrite playPCMStream_eq by done. cbn. by rewrite Hg. Qed.

End MoreFacts.

(** * Facts about the context menu command builder *)
Module ContextMenuFacts.
Import ContextMenu.
Section ContextMenuFacts.
Context `{Assertions}.
Implicit Types (b : ContextMenuCommandBuilder) (c : call) (cs : list call).


Lemma chain_cons_return c cs b b' :
  chain (c :: cs) b = (b', Return tt) →
  ∃ b1, invoke c b = (b1, Return tt) ∧ chain cs b1 = (b', Return tt).
Proof.
  cbn. destruct (invoke c b) as [b1 [[]|e]]; [|intros [=]].
  intros Hc. by exists b1.
Qed.

(** Case analysis on the last argument a chain passes to the setter the
    goal is about. *)
Ltac case_last :=
  match goal with |- context [list.last ?l] => destruct (list.last l) end.

(** X10.  When every call of a chain of setters passes validation, each
    field of the builder ends up with the argument of the last call of its
    setter (for the member permissions: with what the validator made of that
    argument), and a field whose setter was not called keeps its value.
    [toJSON] then leaves the builder untouched and, when it returns, returns
    a copy of exactly these five fields. *)
Theorem chain_last_write cs b b' :
  chain cs b = (b', Return tt) →
  name b' = default (name b) (Some <$> last (names cs)) ∧
  type b' = default (type b) (Some <$> last (types cs)) ∧
  default_permission b' =
    default (default_permission b) (Some <$> last (default_permissions cs)) ∧
  match last (member_permissions cs) with
  | Some v => validateDefaultMemberPermission v = Return (default_member_permissions b')
  | None => default_member_permissions b' = default_member_permissions b
  end ∧
  dm_permission b' = default (dm_permission b) (last (dm_permissions cs)) ∧
  (toJSON b').1 = b' ∧
  (∀ json, (toJSON b').2 = Return json → json = b').
Proof.
  revert b. induction cs as [|c cs IH]; intros b Hc.
  - cbn in Hc. injection Hc as <-. split_and!; try done.
    + unfold toJSON. by case_match.
    + unfold toJSON. case_match; [by intros ? [= <-] | by intros ? [=]].
  - apply chain_cons_return in Hc as (b1 & Hi & Hc).
    destruct (IH b1 Hc) as (Hn & Ht & Hp & Hm & Hd & Hj1 & Hj2). clear IH.
    unfold names, types, default_permissions, member_permissions, dm_permissions in *.
    destruct c; cbn in Hi;
      unfold setName, setType, setDefaultPermission, setDefaultMemberPermissions,
             setDMPermission in Hi;
      match type of Hi with
      | context [match ?x with _ => _ end] => destruct x eqn:Hv
      end; try discriminate; injection Hi as <-; cbn in *;
      rewrite ?last_cons; split_and!; try done.
    + rewrite Hn. by case_last.
    + rewrite Ht. by case_last.
    + rewrite Hp. by case_last.
    + revert Hm. case_last; [done|]. cbn. by intros ->.
    + rewrite Hd. by case_last.
Qed.


End ContextMenuFacts.
End ContextMenuFacts.

(** * The further properties on concrete players and builders *)

(** X1 on the player of the examples. *)
Lemma run_invariants_witness :
  reachable (Examples.playing 1) ∧
  wf (Examples.playing 1) ∧ length (streams (Examples.playing 1)) ≤ 1.
Proof.
  assert (Hr : reachable (Examples.playing 1))
    by (apply (reachable_step (new_player 1)); constructor).
  split; [exact Hr | exact (run_invariants _ Hr)].
Defined.

(** X2 on the three-stream registry: playing media 1 through a transcoder
    with output 2 leaves the entry of stream 2 alone. *)
Lemma playUnknownStream_registry_witness :
  NoDup (Map.keys (streams Examples.three_streams)) ∧
  Map.keys (streams (playUnknownStream 1 None Examples.tr Examples.three_streams).1) = [2] ∧
  d_stream (playUnknownStream 1 None Examples.tr Examples.three_streams).2 = 2.
Proof.
  assert (Hk : NoDup (Map.keys (streams Examples.three_streams))) by compute_done.
  destruct (playUnknownStream_registry 1 None Examples.tr Examples.three_streams Hk)
    as (Hs & Hd & _).
  split_and!; [exact Hk | by rewrite Hs | exact Hd].
Defined.

(** X3 on the three-stream registry. *)
Lemma currentTranscoder_after_play_witness :
  NoDup (Map.keys (streams Examples.three_streams)) ∧
  (currentTranscoder (playUnknownStream 1 None Examples.tr Examples.three_streams).1).2 =
    Return (Some Examples.tr) ∧
  (currentTranscoder (playPCMStream 10 None Examples.three_streams).1).2 = Return None ∧
  (currentTranscoder (playPCMStream 20 None Examples.three_streams).1).2 =
    Return (Some Examples.tr7).
Proof.
  assert (Hk : NoDup (Map.keys (streams Examples.three_streams))) by compute_done.
  split_and!.
  - exact Hk.
  - exact (proj1 (currentTranscoder_after_play 1 10 None Examples.tr _ Hk)).
  - exact (proj2 (currentTranscoder_after_play 1 10 None Examples.tr _ Hk)).
  - exact (proj2 (currentTranscoder_after_play 1 20 None Examples.tr _ Hk)).
Defined.

(** X6 on the three-stream registry: stream 99 is not registered. *)
Lemma destroyAllStreams_unknown_stream_witness :
  NoDup (Map.keys (streams Examples.three_streams)) ∧
  Map.get 99 (streams Examples.three_streams) = None ∧
  streams (destroyAllStreams (ExceptStream 99) Examples.three_streams) = [].
Proof.
  assert (Hk : NoDup (Map.keys (streams Examples.three_streams))) by compute_done.
  split_and!; [exact Hk | reflexivity | ].
  exact (proj2 (destroyAllStreams_unknown_stream 99 _ Hk eq_refl)).
Defined.

(** X7 on the three-stream registry, keeping the last stream. *)
Lemma destroyAllStreams_idem_witness :
  NoDup (Map.keys (streams Examples.three_streams)) ∧
  NoDup (entry_ids (streams Examples.three_streams)) ∧
  destroyAllStreams ExceptTrue (destroyAllStreams ExceptTrue Examples.three_streams) =
    destroyAllStreams ExceptTrue Examples.three_streams.
Proof.
  assert (Hk : NoDup (Map.keys (streams Examples.three_streams))) by compute_done.
  assert (He : NoDup (entry_ids (streams Examples.three_streams))) by compute_done.
  split_and!; [exact Hk | exact He | exact (destroyAllStreams_idem ExceptTrue _ Hk He)].
Defined.

(** X8 on the player of the examples: stream 5 is played, its dispatcher
    ends, the registry is empty. *)
Lemma dispatcher_signal_clears_witness :
  wf (Examples.playing 1) ∧
  streams (emit_from (OfDispatcher (d_id (playPCMStream 5 None (Examples.playing 1)).2))
             "end" 0%Z (playPCMStream 5 None (Examples.playing 1)).1) = [].
Proof.
  assert (Hwf : wf (Examples.playing 1)) by compute_done.
  split; [exact Hwf|].
  exact (proj1 (dispatcher_signal_clears 5 None _ "end" 0%Z Hwf (or_introl eq_refl))).
Defined.

(** X9 on the player of the examples: stream 5 is played twice and the
    first dispatcher ends afterwards. *)
Lemma stale_dispatcher_signal_witness :
  wf (Examples.playing 1) ∧
  let r1 := playPCMStream 5 None (Examples.playing 1) in
  let r2 := playPCMStream 5 None r1.1 in
  d_id r1.2 ≠ d_id r2.2 ∧
  streams (emit_from (OfDispatcher (d_id r1.2)) "end" 0%Z r2.1) = [].
Proof.
  assert (Hwf : wf (Examples.playing 1)) by compute_done.
  split; [exact Hwf|].
  destruct (stale_dispatcher_signal 5 None None _ "end" 0%Z Hwf (or_introl eq_refl))
    as (Hne & _ & Hs & _).
  split; [exact Hne | exact Hs].
Defined.

(** X12 on the player of the examples: stream 5 is not registered. *)
Lemma playPCMStream_new_entry_witness :
  NoDup (Map.keys (streams (Examples.playing 1))) ∧
  Map.get 5 (streams (Examples.playing 1)) = None ∧
  d_id (playPCMStream 5 None (Examples.playing 1)).2 = 2 ∧
  next_id (playPCMStream 5 None (Examples.playing 1)).1 = 4.
Proof.
  assert (Hk : NoDup (Map.keys (streams (Examples.playing 1)))) by compute_done.
  destruct (playPCMStream_new_entry 5 None _ Hk eq_refl) as (_ & Hd & Hn).
  split_and!; [exact Hk | reflexivity | exact Hd | exact Hn].
Defined.

(** X13 on a new player: the media 1 is not the transcoder's output 2. *)
Lemma transcoder_error_wrong_key_witness :
  wf (new_player (value:=Z) 0) ∧ Examples.media ≠ output Examples.tr ∧
  destroyStream Examples.media (Examples.playing 0) = Examples.playing 0.
Proof.
  assert (Hwf : wf (new_player (value:=Z) 0)) by compute_done.
  assert (Hne : Examples.media ≠ output Examples.tr) by compute_done.
  destruct (transcoder_error_wrong_key Examples.media None Examples.tr 42%Z _ Hwf Hne)
    as (_ & _ & Hd).
  split_and!; [exact Hwf | exact Hne | exact Hd].
Defined.

(** X10 with the sample validators: the name is set twice, the type once. *)
Lemma chain_last_write_witness :
  let cs := [ContextMenu.SetName "ban"; ContextMenu.SetType ContextMenu.User;
             ContextMenu.SetName "kick"] in
  let b' := (ContextMenu.chain (H:=ContextMenu.sample_assertions) cs
               ContextMenu.new_builder).1 in
  ContextMenu.chain (H:=ContextMenu.sample_assertions) cs ContextMenu.new_builder =
    (b', Return tt) ∧
  ContextMenu.name b' = Some "kick" ∧
  ContextMenu.type b' = Some ContextMenu.User ∧
  ContextMenu.dm_permission b' = ContextMenu.Undefined.
Proof.
  cbv zeta.
  destruct (ContextMenuFacts.chain_last_write (H:=ContextMenu.sample_assertions)
              [ContextMenu.SetName "ban"; ContextMenu.SetType ContextMenu.User;
               ContextMenu.SetName "kick"]
              ContextMenu.new_builder _ eq_refl)
    as (Hn & Ht & _ & _ & Hd & _).
  split_and!; [reflexivity | exact Hn | exact Ht | exact Hd].
Defined.

